(** * Tile-based circle rasterizer (paralela/opt/src/render.cpp)

    A shallow embedding of [draw_circle_clipped_to_tile] and
    [render_circles_tiled_omp], and the properties of the binning pass and of
    the tile rasterization pass.

    Conventions of the embedding.
    - C++ [int] values are integers of [Z]; [/] and [%] on [int] are the
      truncating [Z.quot] and [Z.rem].  Signed overflow is undefined in C++
      and lies outside the model.
    - [size_t] index arithmetic wraps modulo 2^64 and is written out.
    - [(int)std::lround(P.x[i])] is the particle's integer centre; the
      particle record carries it already rounded.
    - [(int)std::floor(std::sqrt((double)r*r - (double)dy*dy))] is the integer
      square root [Z.sqrt]: for a radicand that is a non-negative integer
      below 2^52 the correctly rounded double square root has that floor.
      The radicand is never negative inside the row loop.
    - The code is embedded by explicit state passing: the loops thread the
      framebuffer (or the bins) through their bodies.  An index past the end
      of a [std::vector] is undefined behaviour and aborts the run: the
      function answers [None].
    - Neither pass reads a pixel, and the control flow depends only on the
      particles, [fb.W], [fb.H] and (for the second pass) the finished bins.
      Each function therefore also has the sequence of memory effects it
      issues in program order ([push_back] on a bin, store to [fb.pix]),
      written with the same loops; a lemma equates the function with the
      effect of its sequence.  The properties of "the stores performed" are
      stated on these sequences. *)

From Stdlib Require Import ZArith Lia.
From stdpp Require Import base option list list_numbers sorting.

Local Open Scope Z_scope.

(** ** Machine integers *)

Definition size_max : Z := 2 ^ 64.
Definition int_max : Z := 2 ^ 31.

(** Conversion of an [int] to [size_t], and [size_t] arithmetic. *)
Definition size_t (z : Z) : Z := z `mod` size_max.
Definition size_mul (a b : Z) : Z := (a * b) `mod` size_max.
Definition size_add (a b : Z) : Z := (a + b) `mod` size_max.

(** ** Loops *)

(** [for (x : l) body(x)] on a state that each body updates and that an
    undefined access aborts. *)
Fixpoint for_each {A S} (l : list A) (body : A → S → option S) (s : S)
    : option S :=
  match l with
  | [] => Some s
  | a :: l' => s' ← body a s; for_each l' body s'
  end.

(** [for (int i = lo; i <= hi; ++i) body(i)] *)
Definition for_le {S} (lo hi : Z) (body : Z → S → option S) (s : S)
    : option S :=
  for_each (seqZ lo (hi + 1 - lo)) body s.

(** [for (int i = lo; i < hi; ++i) body(i)] *)
Definition for_lt {S} (lo hi : Z) (body : Z → S → option S) (s : S)
    : option S :=
  for_each (seqZ lo (hi - lo)) body s.

(** The memory effects that the bodies of a loop issue, in program order:
    for [lo <= i <= hi] and for [lo <= i < hi]. *)
Definition collect_le {A} (lo hi : Z) (body : Z → list A) : list A :=
  seqZ lo (hi + 1 - lo) ≫= body.

Definition collect_lt {A} (lo hi : Z) (body : Z → list A) : list A :=
  seqZ lo (hi - lo) ≫= body.

(** ** Data model *)

(** Modelled from the spec: [ParticlesSOA] is declared in sim.hpp, which is
    not part of the sources.  The spec gives a particle a position, an integer
    radius and a packed 32-bit colour, stored column-wise and read at one
    common index [i < P.n].  A particle is the record of the four columns at
    one index, with the position already rounded by [std::lround]. *)
Record Particle := mkParticle {
  p_x : Z;
  p_y : Z;
  p_r : Z;
  p_color : Z
}.

Abbreviation ParticlesSOA := (list Particle).

Global Instance Particle_inhabited : Inhabited Particle :=
  populate (mkParticle 0 0 0 0).

(** [P.n] *)
Definition p_n (P : ParticlesSOA) : Z := Z.of_nat (length P).

(** The columns of [P] at index [i].  The passes read them only at indices
    below [P.n] (the particle loop, and the contents of the bins: lemma
    [bin_at_sorted]). *)
Definition particle (P : ParticlesSOA) (i : Z) : Particle := P !!! Z.to_nat i.

(** [struct Framebuffer { int W, H; std::vector<uint32_t> pix; }] *)
Record Framebuffer := mkFramebuffer {
  W : Z;
  H : Z;
  pix : list Z
}.

(** [Framebuffer(int w, int h) : W(w), H(h), pix((size_t)w * h, 0)] *)
Definition Framebuffer_new (w h : Z) : Framebuffer :=
  mkFramebuffer w h (replicate (Z.to_nat (size_mul (size_t w) (size_t h))) 0).

(** [void clear(uint32_t abgr)] *)
Definition clear (fb : Framebuffer) (abgr : Z) : Framebuffer :=
  mkFramebuffer (W fb) (H fb) (replicate (length (pix fb)) abgr).

(** What the constructor establishes, for dimensions of type [int]. *)
Definition fb_wf (fb : Framebuffer) : Prop :=
  0 ≤ W fb < int_max ∧ 0 ≤ H fb < int_max ∧
  Z.of_nat (length (pix fb)) = W fb * H fb.

(** The pixel of [fb] at column [x], row [y]. *)
Definition pixel (fb : Framebuffer) (x y : Z) : option Z :=
  pix fb !! Z.to_nat (y * W fb + x).

(** ** draw_circle_clipped_to_tile *)

(** [fb.pix[idx] = c] *)
Definition store_pix (fb : Framebuffer) (idx c : Z) : option Framebuffer :=
  if decide (idx < Z.of_nat (length (pix fb)))
  then Some (mkFramebuffer (W fb) (H fb) (<[Z.to_nat idx := c]> (pix fb)))
  else None.

(** *** putpix *)

(** Conversion of an [int] to [unsigned]. *)
Definition uint_max : Z := 2 ^ 32.
Definition uint (z : Z) : Z := z `mod` uint_max.

(** [static inline void putpix(Framebuffer& fb, int x, int y, uint32_t c)] *)
Definition putpix (fb : Framebuffer) (x y c : Z) : option Framebuffer :=
  if decide (uint (W fb) ≤ uint x ∨ uint (H fb) ≤ uint y)
  then Some fb
  else store_pix fb
         (size_add (size_mul (size_t y) (size_t (W fb))) (size_t x)) c.

Definition draw_circle_clipped_to_tile
    (fb : Framebuffer) (cx cy r color x0 y0 x1 y1 : Z) : option Framebuffer :=
  let yy_from := Z.max (cy - r) y0 in
  let yy_to := Z.min (cy + r) (y1 - 1) in
  for_le yy_from yy_to (λ yy fb,
    let dy := yy - cy in
    let dx := Z.sqrt (r * r - dy * dy) in
    let xx0 := Z.max (cx - dx) x0 in
    let xx1 := Z.min (cx + dx) (x1 - 1) in
    let row := size_mul (size_t yy) (size_t (W fb)) in
    for_le xx0 xx1 (λ xx fb,
      store_pix fb (size_add row (size_t xx)) color) fb) fb.

(** *** The stores of a call *)

(** One execution of [fb.pix[row + xx] = color]: the row and column it was
    issued for, the index [row + xx] it computes, and the colour. *)
Record Store := mkStore {
  st_y : Z;
  st_x : Z;
  st_addr : Z;
  st_val : Z
}.

(** The effect of one store, and of a sequence of stores, on the pixel
    vector. *)
Definition store (pix : list Z) (s : Store) : option (list Z) :=
  if decide (st_addr s < Z.of_nat (length pix))
  then Some (<[Z.to_nat (st_addr s) := st_val s]> pix)
  else None.

Fixpoint run_stores (pix : list Z) (ss : list Store) : option (list Z) :=
  match ss with
  | [] => Some pix
  | s :: ss' => pix' ← store pix s; run_stores pix' ss'
  end.

Definition exec (fb : Framebuffer) (ss : list Store) : option Framebuffer :=
  mkFramebuffer (W fb) (H fb) <$> run_stores (pix fb) ss.

(** The stores that [draw_circle_clipped_to_tile] issues, in program order
    (lemma [draw_circle_clipped_to_tile_stores]).  Of [fb] the function
    reads only [fb.W]. *)
Definition draw_circle_stores
    (fbW cx cy r color x0 y0 x1 y1 : Z) : list Store :=
  let yy_from := Z.max (cy - r) y0 in
  let yy_to := Z.min (cy + r) (y1 - 1) in
  collect_le yy_from yy_to (λ yy,
    let dy := yy - cy in
    let dx := Z.sqrt (r * r - dy * dy) in
    let xx0 := Z.max (cx - dx) x0 in
    let xx1 := Z.min (cx + dx) (x1 - 1) in
    let row := size_mul (size_t yy) (size_t fbW) in
    collect_le xx0 xx1 (λ xx,
      [mkStore yy xx (size_add row (size_t xx)) color])).

(** ** render_circles_tiled_omp *)

Definition TILE : Z := 32.

Section Tiled.
(** The tile edge; the source fixes it to [TILE]. *)
Variable T : Z.

Definition tiles_of (extent : Z) : Z := (extent + T - 1) `quot` T.

(** *** Binning pass *)

(** [bins[k].push_back(i)] *)
Definition push_back (bins : list (list Z)) (k i : Z)
    : option (list (list Z)) :=
  if decide (k < Z.of_nat (length bins))
  then Some (alter (λ b, b ++ [i]) (Z.to_nat k) bins)
  else None.

(** One iteration of the particle loop. *)
Definition bin_particle (tiles_x tiles_y : Z) (i : Z) (p : Particle)
    (bins : list (list Z)) : option (list (list Z)) :=
  let cx := p_x p in
  let cy := p_y p in
  let r := p_r p in
  let min_tx := Z.max 0 ((cx - r) `quot` T) in
  let max_tx := Z.min (tiles_x - 1) ((cx + r) `quot` T) in
  let min_ty := Z.max 0 ((cy - r) `quot` T) in
  let max_ty := Z.min (tiles_y - 1) ((cy + r) `quot` T) in
  for_le min_ty max_ty (λ ty bins,
    for_le min_tx max_tx (λ tx bins,
      push_back bins
        (size_add (size_mul (size_t ty) (size_t tiles_x)) (size_t tx)) i)
      bins) bins.

(** The bins after the binning pass. *)
Definition binning (P : ParticlesSOA) (fbW fbH : Z)
    : option (list (list Z)) :=
  let tiles_x := tiles_of fbW in
  let tiles_y := tiles_of fbH in
  let total_tiles := tiles_x * tiles_y in
  for_lt 0 (p_n P) (λ i bins,
    bin_particle tiles_x tiles_y i (particle P i) bins)
    (replicate (Z.to_nat (size_t total_tiles)) []).

(** The [push_back]s that one iteration of the particle loop and the whole
    binning pass issue, in program order (lemma [binning_pushes_run]): the
    bin index [(size_t)ty * tiles_x + tx] and the pushed particle index. *)
Definition bin_pushes (tiles_x tiles_y : Z) (i : Z) (p : Particle)
    : list (Z * Z) :=
  let cx := p_x p in
  let cy := p_y p in
  let r := p_r p in
  let min_tx := Z.max 0 ((cx - r) `quot` T) in
  let max_tx := Z.min (tiles_x - 1) ((cx + r) `quot` T) in
  let min_ty := Z.max 0 ((cy - r) `quot` T) in
  let max_ty := Z.min (tiles_y - 1) ((cy + r) `quot` T) in
  collect_le min_ty max_ty (λ ty,
    collect_le min_tx max_tx (λ tx,
      [(size_add (size_mul (size_t ty) (size_t tiles_x)) (size_t tx), i)])).

Definition binning_pushes (P : ParticlesSOA) (fbW fbH : Z) : list (Z * Z) :=
  let tiles_x := tiles_of fbW in
  let tiles_y := tiles_of fbH in
  collect_lt 0 (p_n P) (λ i, bin_pushes tiles_x tiles_y i (particle P i)).

Fixpoint run_pushes (bins : list (list Z)) (es : list (Z * Z))
    : option (list (list Z)) :=
  match es with
  | [] => Some bins
  | e :: es' => bins' ← push_back bins e.1 e.2; run_pushes bins' es'
  end.

(** *** Tile pass *)

(** [bins[(size_t)tid]], read by the tile loop at [tid < total_tiles], the
    size of [bins]. *)
Definition bin_at (bins : list (list Z)) (tid : Z) : list Z :=
  bins !!! Z.to_nat (size_t tid).

(** The rectangle [x0, x1) × [y0, y1) of tile [tid]. *)
Definition tile_x0 (fbW tid : Z) : Z := (tid `rem` tiles_of fbW) * T.
Definition tile_x1 (fbW tid : Z) : Z := Z.min (tile_x0 fbW tid + T) fbW.
Definition tile_y0 (fbW tid : Z) : Z := (tid `quot` tiles_of fbW) * T.
Definition tile_y1 (fbW fbH tid : Z) : Z := Z.min (tile_y0 fbW tid + T) fbH.

(** The body of the tile loop for one [tid]: the calls of
    [draw_circle_clipped_to_tile] for the particles of the tile's bin. *)
Definition render_tile (P : ParticlesSOA) (bins : list (list Z)) (tid : Z)
    (fb : Framebuffer) : option Framebuffer :=
  let x0 := tile_x0 (W fb) tid in
  let x1 := tile_x1 (W fb) tid in
  let y0 := tile_y0 (W fb) tid in
  let y1 := tile_y1 (W fb) (H fb) tid in
  for_each (bin_at bins tid) (λ idx fb,
    draw_circle_clipped_to_tile fb
      (p_x (particle P idx)) (p_y (particle P idx))
      (p_r (particle P idx)) (p_color (particle P idx))
      x0 y0 x1 y1) fb.

(** The order of the sequential loop
    [for (int tid = 0; tid < total_tiles; ++tid)]. *)
Definition tile_order (fbW fbH : Z) : list Z :=
  seqZ 0 (tiles_of fbW * tiles_of fbH).

(** Both passes, with the tiles taken in the serial order [order].  The
    OpenMP taskloop runs one task per [tid]; the tasks share [fb] and read
    the finished bins. *)
Definition render_in_order (order : list Z) (P : ParticlesSOA)
    (fb : Framebuffer) : option Framebuffer :=
  bins ← binning P (W fb) (H fb);
  for_each order (render_tile P bins) fb.

(** The sequential fallback ([#else] branch), for a tile edge [T]. *)
Definition render_circles_tiled (P : ParticlesSOA) (fb : Framebuffer)
    : option Framebuffer :=
  render_in_order (tile_order (W fb) (H fb)) P fb.

(** The stores that [render_tile] issues, in program order. *)
Definition tile_stores (P : ParticlesSOA) (fbW fbH : Z)
    (bins : list (list Z)) (tid : Z) : list Store :=
  let x0 := tile_x0 fbW tid in
  let x1 := tile_x1 fbW tid in
  let y0 := tile_y0 fbW tid in
  let y1 := tile_y1 fbW fbH tid in
  idx ← bin_at bins tid;
  draw_circle_stores fbW
    (p_x (particle P idx)) (p_y (particle P idx))
    (p_r (particle P idx)) (p_color (particle P idx))
    x0 y0 x1 y1.

(** The stores that the tile loop issues when it takes the tiles in the
    order [order]. *)
Definition raster_stores (P : ParticlesSOA) (fbW fbH : Z)
    (bins : list (list Z)) (order : list Z) : list Store :=
  tid ← order; tile_stores P fbW fbH bins tid.
End Tiled.

(** [void render_circles_tiled_omp(const ParticlesSOA& P, Framebuffer& fb)] *)
Definition render_circles_tiled_omp (P : ParticlesSOA) (fb : Framebuffer)
    : option Framebuffer :=
  render_circles_tiled TILE P fb.

(** ** The untiled reference *)



(** ** Vocabulary of the properties *)

(** The integer disc of centre [(cx, cy)] and radius [r]. *)
Definition in_disc (cx cy r x y : Z) : Prop :=
  (x - cx) * (x - cx) + (y - cy) * (y - cy) ≤ r * r.

Global Instance in_disc_dec cx cy r x y : Decision (in_disc cx cy r x y).
Proof. unfold in_disc. apply _. Defined.

(** Pixel [(x, y)] lies in the disc of particle [p]. *)
Definition covers (p : Particle) (x y : Z) : Prop :=
  0 ≤ p_r p ∧ in_disc (p_x p) (p_y p) (p_r p) x y.

Global Instance covers_dec p x y : Decision (covers p x y).
Proof. unfold covers. apply _. Defined.

(** The half-open rectangle [x0, x1) × [y0, y1). *)
Definition in_rect (x0 y0 x1 y1 x y : Z) : Prop :=
  x0 ≤ x < x1 ∧ y0 ≤ y < y1.

Global Instance in_rect_dec x0 y0 x1 y1 x y :
  Decision (in_rect x0 y0 x1 y1 x y).
Proof. unfold in_rect. apply _. Defined.

(** The bounding square [cx−r, cx+r] × [cy−r, cy+r] of [p]. *)
Definition in_bbox (p : Particle) (x y : Z) : Prop :=
  p_x p - p_r p ≤ x ≤ p_x p + p_r p ∧ p_y p - p_r p ≤ y ≤ p_y p + p_r p.

(** The bounding square of [p] intersects the rectangle.  All bounds are
    integers, so the two sets intersect exactly when they share an integer
    point. *)
Definition bbox_meets (p : Particle) (x0 y0 x1 y1 : Z) : Prop :=
  ∃ x y, in_bbox p x y ∧ in_rect x0 y0 x1 y1 x y.

(** A store whose row and column lie in the framebuffer and whose index is
    the flat index of that pixel. *)
Definition store_ok (fbW fbH : Z) (s : Store) : Prop :=
  0 ≤ st_x s < fbW ∧ 0 ≤ st_y s < fbH ∧ st_addr s = st_y s * fbW + st_x s.

(** The store was issued for pixel [(x, y)]. *)
Definition at_pixel (x y : Z) (s : Store) : Prop := st_x s = x ∧ st_y s = y.

Global Instance at_pixel_dec x y s : Decision (at_pixel x y s).
Proof. unfold at_pixel. apply _. Defined.

(** The colour of the last store of [ss] issued for pixel [(x, y)]. *)
Fixpoint last_store (x y : Z) (ss : list Store) : option Z :=
  match ss with
  | [] => None
  | s :: ss' =>
      match last_store x y ss' with
      | Some c => Some c
      | None => if decide (at_pixel x y s) then Some (st_val s) else None
      end
  end.

(** The colour of the highest-index particle of [P] whose disc contains
    [(x, y)]. *)
Definition painter (P : ParticlesSOA) (x y : Z) : option Z :=
  last (p_color <$> filter (λ p, covers p x y) P).

(** The particle indices that the binning pass pushes to the bin of the tile
    in column [tx], row [ty]. *)
Definition binned (T tiles_x tiles_y : Z) (p : Particle) (tx ty : Z) : Prop :=
  (Z.max 0 ((p_x p - p_r p) `quot` T) ≤ tx
     ≤ Z.min (tiles_x - 1) ((p_x p + p_r p) `quot` T)) ∧
  (Z.max 0 ((p_y p - p_r p) `quot` T) ≤ ty
     ≤ Z.min (tiles_y - 1) ((p_y p + p_r p) `quot` T)).

Global Instance binned_dec T tiles_x tiles_y p tx ty :
  Decision (binned T tiles_x tiles_y p tx ty).
Proof. unfold binned. apply _. Defined.

(** ** Machine integers: lemmas *)

Lemma size_t_small z : 0 ≤ z < size_max → size_t z = z.
Proof. intros. unfold size_t. by apply Z.mod_small. Qed.

Lemma size_index a b c :
  0 ≤ a → 0 ≤ b → 0 ≤ c → a * b + c < size_max →
  size_add (size_mul (size_t a) (size_t b)) (size_t c) = a * b + c.
Proof.
  intros Ha Hb Hc Hlt. unfold size_add, size_mul, size_t.
  assert (size_max ≠ 0) by done.
  rewrite <- Z.mul_mod, <- Z.add_mod by done.
  apply Z.mod_small. nia.
Qed.

Lemma flat_index_inj w x y x' y' :
  0 ≤ x < w → 0 ≤ x' < w → y * w + x = y' * w + x' → x = x' ∧ y = y'.
Proof.
  intros Hx Hx' Heq.
  destruct (Z.div_mod_unique w y y' x x') as [-> ->]; [lia|lia|lia|done].
Qed.

Lemma flat_index_lt w h x y :
  0 ≤ x < w → 0 ≤ y < h → 0 ≤ y * w + x < w * h.
Proof. intros. split; nia. Qed.

(** ** Loops: lemmas *)

Lemma elem_of_collect_le {A} lo hi (body : Z → list A) a :
  a ∈ collect_le lo hi body ↔ ∃ i, lo ≤ i ≤ hi ∧ a ∈ body i.
Proof.
  unfold collect_le. rewrite list_elem_of_bind. setoid_rewrite elem_of_seqZ.
  split; intros (i & ? & ?); exists i; split; (done || lia).
Qed.

Lemma elem_of_collect_lt {A} lo hi (body : Z → list A) a :
  a ∈ collect_lt lo hi body ↔ ∃ i, lo ≤ i < hi ∧ a ∈ body i.
Proof.
  unfold collect_lt. rewrite list_elem_of_bind. setoid_rewrite elem_of_seqZ.
  split; intros (i & ? & ?); exists i; split; (done || lia).
Qed.

(** ** Stores: lemmas *)

Lemma last_store_app x y a b :
  last_store x y (a ++ b) =
  match last_store x y b with
  | Some c => Some c
  | None => last_store x y a
  end.
Proof.
  induction a as [|s a IH]; simpl.
  - by destruct (last_store x y b).
  - rewrite IH. by destruct (last_store x y b).
Qed.

Lemma last_store_None x y ss :
  last_store x y ss = None ↔ ∀ s, s ∈ ss → ¬ at_pixel x y s.
Proof.
  induction ss as [|s ss IH]; simpl.
  - split; [|done]. intros _ s Hs. by apply not_elem_of_nil in Hs.
  - destruct (last_store x y ss) as [c|] eqn:E.
    + split; [done|]. intros Hall.
      assert (Some c = None) as Hc; [|done].
      apply IH. intros s' Hs'. apply Hall. by right.
    + case_decide as Hd.
      * split; [done|]. intros Hall. exfalso. apply (Hall s); [by left|done].
      * split; [|done]. intros _ s' Hs'.
        apply elem_of_cons in Hs' as [->|Hs']; [done|].
        by apply (proj1 IH).
Qed.

Lemma last_store_Some x y ss c :
  last_store x y ss = Some c →
  ∃ s, s ∈ ss ∧ at_pixel x y s ∧ st_val s = c.
Proof.
  induction ss as [|s ss IH]; simpl; [done|].
  destruct (last_store x y ss) as [c'|] eqn:E.
  - intros [= <-]. destruct IH as (s' & ? & ?); [done|].
    exists s'. split; [by right|done].
  - case_decide as Hd; [|done]. intros [= <-].
    exists s. split; [by left|done].
Qed.

(** A sequence of stores of one colour. *)
Lemma last_store_uniform x y ss c (Q : Prop) `{!Decision Q} :
  (∀ s, s ∈ ss → st_val s = c) →
  (Q ↔ ∃ s, s ∈ ss ∧ at_pixel x y s) →
  last_store x y ss = if decide Q then Some c else None.
Proof.
  intros Hc HQ. destruct (last_store x y ss) as [c'|] eqn:E.
  - apply last_store_Some in E as (s & Hs & Hat & Hv).
    rewrite decide_True by (apply HQ; eauto).
    rewrite <- Hv. f_equal. by apply Hc.
  - rewrite decide_False; [done|]. intros (s & Hs & Hat)%HQ.
    by apply (proj1 (last_store_None x y ss) E s).
Qed.

(** The effect of a sequence of in-range stores: it runs without fault, and
    each pixel ends with the colour of the last store issued for it. *)
Lemma run_stores_spec fbW fbH ss (px : list Z) :
  Forall (store_ok fbW fbH) ss →
  Z.of_nat (length px) = fbW * fbH →
  ∃ px', run_stores px ss = Some px' ∧ length px' = length px ∧
    ∀ x y, 0 ≤ x < fbW → 0 ≤ y < fbH →
      px' !! Z.to_nat (y * fbW + x) =
      match last_store x y ss with
      | Some c => Some c
      | None => px !! Z.to_nat (y * fbW + x)
      end.
Proof.
  intros Hok. revert px. induction Hok as [|s ss Hs Hok IH]; intros px Hlen.
  { exists px. simpl. done. }
  destruct Hs as (Hsx & Hsy & Haddr).
  pose proof (flat_index_lt fbW fbH _ _ Hsx Hsy) as Hrange.
  simpl. unfold store. rewrite decide_True by lia. simpl.
  destruct (IH (<[Z.to_nat (st_addr s) := st_val s]> px)) as (px' & Hrun & Hl & Hpt).
  { by rewrite length_insert. }
  exists px'. split; [done|]. split; [by rewrite Hl, length_insert|].
  intros x y Hx Hy. rewrite (Hpt x y Hx Hy).
  destruct (last_store x y ss) as [c|]; [done|].
  pose proof (flat_index_lt fbW fbH _ _ Hx Hy) as Hrange'.
  case_decide as Hd.
  - destruct Hd as [<- <-]. rewrite Haddr.
    apply list_lookup_insert_eq. lia.
  - apply list_lookup_insert_ne. rewrite Haddr. intros Heq.
    apply Hd. apply (flat_index_inj fbW); [done|done|lia].
Qed.

(** Two pixel vectors of one framebuffer that agree at every pixel are
    equal. *)
Lemma pix_ext fbW fbH (p1 p2 : list Z) :
  0 ≤ fbW →
  Z.of_nat (length p1) = fbW * fbH → length p2 = length p1 →
  (∀ x y, 0 ≤ x < fbW → 0 ≤ y < fbH →
     p1 !! Z.to_nat (y * fbW + x) = p2 !! Z.to_nat (y * fbW + x)) →
  p1 = p2.
Proof.
  intros HW Hlen Hlen2 Hpt. apply list_eq. intros i.
  destruct (decide (i < length p1)%nat) as [Hi|Hi].
  - assert (0 < fbW) as HW'.
    { destruct (decide (fbW = 0)) as [->|]; lia. }
    pose proof (Z.div_mod (Z.of_nat i) fbW ltac:(lia)) as Hdm.
    pose proof (Z.mod_pos_bound (Z.of_nat i) fbW HW') as Hm.
    assert (0 ≤ Z.of_nat i `div` fbW < fbH) as Hq.
    { split; [apply Z.div_pos; lia|]. apply Z.div_lt_upper_bound; lia. }
    specialize (Hpt _ _ Hm Hq).
    replace (Z.to_nat (Z.of_nat i `div` fbW * fbW + Z.of_nat i `mod` fbW))
      with i in Hpt by lia.
    done.
  - rewrite !(proj2 (lookup_ge_None _ _)); [done|lia|lia].
Qed.

Lemma exec_spec fb ss :
  fb_wf fb → Forall (store_ok (W fb) (H fb)) ss →
  ∃ fb', exec fb ss = Some fb' ∧ W fb' = W fb ∧ H fb' = H fb ∧ fb_wf fb' ∧
    ∀ x y, 0 ≤ x < W fb → 0 ≤ y < H fb →
      pixel fb' x y =
      match last_store x y ss with
      | Some c => Some c
      | None => pixel fb x y
      end.
Proof.
  intros (HW & HH & Hlen) Hok.
  destruct (run_stores_spec _ _ _ _ Hok Hlen) as (px' & Hrun & Hl & Hpt).
  exists (mkFramebuffer (W fb) (H fb) px'). unfold exec. rewrite Hrun.
  repeat split; simpl; try lia. by apply Hpt.
Qed.

(** Two store sequences with the same last store at every pixel have the
    same effect. *)
Lemma exec_ext fb ss1 ss2 :
  fb_wf fb →
  Forall (store_ok (W fb) (H fb)) ss1 →
  Forall (store_ok (W fb) (H fb)) ss2 →
  (∀ x y, 0 ≤ x < W fb → 0 ≤ y < H fb →
     last_store x y ss1 = last_store x y ss2) →
  exec fb ss1 = exec fb ss2.
Proof.
  intros Hwf Hok1 Hok2 Hlast.
  destruct Hwf as (HW & HH & Hlen).
  destruct (run_stores_spec _ _ _ _ Hok1 Hlen) as (p1 & Hrun1 & Hl1 & Hpt1).
  destruct (run_stores_spec _ _ _ _ Hok2 Hlen) as (p2 & Hrun2 & Hl2 & Hpt2).
  unfold exec. rewrite Hrun1, Hrun2. simpl. do 2 f_equal.
  apply (pix_ext (W fb) (H fb)); [lia|lia|congruence|].
  intros x y Hx Hy. rewrite Hpt1, Hpt2, Hlast by done. done.
Qed.

Lemma run_stores_app px a b :
  run_stores px (a ++ b) = run_stores px a ≫= λ px', run_stores px' b.
Proof.
  revert px. induction a as [|s a IH]; intros px; [done|].
  simpl. destruct (store px s) as [px1|]; simpl; [apply IH|done].
Qed.

Lemma exec_app fb a b : exec fb (a ++ b) = exec fb a ≫= λ fb', exec fb' b.
Proof.
  unfold exec. rewrite run_stores_app.
  by destruct (run_stores (pix fb) a).
Qed.

Lemma exec_dims fb ss fb' :
  exec fb ss = Some fb' → W fb' = W fb ∧ H fb' = H fb.
Proof.
  unfold exec. destruct (run_stores (pix fb) ss); [|done].
  by intros [= <-].
Qed.

Lemma for_each_ext {A S} (f g : A → S → option S) l s :
  (∀ a s', f a s' = g a s') → for_each l f s = for_each l g s.
Proof.
  intros Hfg. revert s. induction l as [|a l IH]; intros s; [done|].
  simpl. rewrite Hfg. destruct (g a s); simpl; [apply IH|done].
Qed.

(** A loop whose bodies are store sequences issues the concatenation of
    the sequences; the stores of a body may depend on [fb.W] and [fb.H],
    which no store changes. *)
Lemma for_each_exec {A} (f : A → Z → Z → list Store) l fb :
  for_each l (λ a fb', exec fb' (f a (W fb') (H fb'))) fb =
  exec fb (l ≫= λ a, f a (W fb) (H fb)).
Proof.
  revert fb. induction l as [|a l IH]; intros fb.
  { by destruct fb. }
  simpl. rewrite exec_app.
  destruct (exec fb (f a (W fb) (H fb))) as [fb'|] eqn:E; simpl; [|done].
  apply exec_dims in E as [HW HH]. rewrite IH. by rewrite HW, HH.
Qed.

Lemma exec_singleton fb s :
  exec fb [s] = store_pix fb (st_addr s) (st_val s).
Proof.
  unfold exec, store_pix. simpl. unfold store. by case_decide.
Qed.

(** [draw_circle_clipped_to_tile], as the effect of the stores it issues. *)
Lemma draw_circle_clipped_to_tile_stores fb cx cy r color x0 y0 x1 y1 :
  draw_circle_clipped_to_tile fb cx cy r color x0 y0 x1 y1 =
  exec fb (draw_circle_stores (W fb) cx cy r color x0 y0 x1 y1).
Proof.
  unfold draw_circle_clipped_to_tile, draw_circle_stores, for_le, collect_le.
  cbv zeta.
  rewrite (for_each_ext _ (λ yy fb',
    exec fb'
      (seqZ (Z.max (cx - Z.sqrt (r * r - (yy - cy) * (yy - cy))) x0)
            (Z.min (cx + Z.sqrt (r * r - (yy - cy) * (yy - cy))) (x1 - 1)
             + 1 - Z.max (cx - Z.sqrt (r * r - (yy - cy) * (yy - cy))) x0)
       ≫= λ xx, [mkStore yy xx
                   (size_add (size_mul (size_t yy) (size_t (W fb')))
                             (size_t xx)) color]))).
  - apply (for_each_exec (λ yy w h,
      seqZ (Z.max (cx - Z.sqrt (r * r - (yy - cy) * (yy - cy))) x0)
           (Z.min (cx + Z.sqrt (r * r - (yy - cy) * (yy - cy))) (x1 - 1)
            + 1 - Z.max (cx - Z.sqrt (r * r - (yy - cy) * (yy - cy))) x0)
      ≫= λ xx, [mkStore yy xx
                  (size_add (size_mul (size_t yy) (size_t w)) (size_t xx))
                  color])).
  - intros yy fb'.
    rewrite (for_each_ext _ (λ xx fb'',
      exec fb'' [mkStore yy xx
                   (size_add (size_mul (size_t yy) (size_t (W fb')))
                             (size_t xx)) color])).
    + apply (for_each_exec (λ xx w h,
        [mkStore yy xx
           (size_add (size_mul (size_t yy) (size_t (W fb'))) (size_t xx))
           color])).
    + intros xx fb''. by rewrite exec_singleton.
Qed.


(** The tile loop, as the effect of the stores it issues. *)
Lemma render_tile_stores T P bins tid fb :
  render_tile T P bins tid fb =
  exec fb (tile_stores T P (W fb) (H fb) bins tid).
Proof.
  unfold render_tile, tile_stores. cbv zeta.
  rewrite (for_each_ext _ (λ idx fb',
    exec fb' (draw_circle_stores (W fb')
      (p_x (particle P idx)) (p_y (particle P idx))
      (p_r (particle P idx)) (p_color (particle P idx))
      (tile_x0 T (W fb) tid) (tile_y0 T (W fb) tid)
      (tile_x1 T (W fb) tid) (tile_y1 T (W fb) (H fb) tid)))).
  - apply (for_each_exec (λ idx w h,
      draw_circle_stores w
        (p_x (particle P idx)) (p_y (particle P idx))
        (p_r (particle P idx)) (p_color (particle P idx))
        (tile_x0 T (W fb) tid) (tile_y0 T (W fb) tid)
        (tile_x1 T (W fb) tid) (tile_y1 T (W fb) (H fb) tid))).
  - intros idx fb'. apply draw_circle_clipped_to_tile_stores.
Qed.

Lemma render_in_order_stores T order P fb :
  render_in_order T order P fb =
  bins ← binning T P (W fb) (H fb);
  exec fb (raster_stores T P (W fb) (H fb) bins order).
Proof.
  unfold render_in_order. destruct (binning T P (W fb) (H fb)) as [bins|];
    [|done].
  simpl. rewrite (for_each_ext _ _ _ _ (render_tile_stores T P bins)).
  apply (for_each_exec (λ tid w h, tile_stores T P w h bins tid)).
Qed.

(** ** The scanline fill: lemmas *)

Lemma elem_of_draw_circle_stores fbW cx cy r color x0 y0 x1 y1 s :
  s ∈ draw_circle_stores fbW cx cy r color x0 y0 x1 y1 ↔
  st_val s = color ∧
  st_addr s = size_add (size_mul (size_t (st_y s)) (size_t fbW))
                       (size_t (st_x s)) ∧
  Z.max (cy - r) y0 ≤ st_y s ≤ Z.min (cy + r) (y1 - 1) ∧
  Z.max (cx - Z.sqrt (r * r - (st_y s - cy) * (st_y s - cy))) x0 ≤ st_x s
    ≤ Z.min (cx + Z.sqrt (r * r - (st_y s - cy) * (st_y s - cy))) (x1 - 1).
Proof.
  unfold draw_circle_stores. rewrite elem_of_collect_le.
  setoid_rewrite elem_of_collect_le. setoid_rewrite list_elem_of_singleton.
  split.
  - intros (yy & Hyy & xx & Hxx & ->). simpl. done.
  - intros (Hv & Ha & Hy & Hx). exists (st_y s). split; [done|].
    exists (st_x s). split; [done|].
    destruct s; simpl in *. by subst.
Qed.

Lemma sq_le_of_bounds d q : - q ≤ d ≤ q → d * d ≤ q * q.
Proof.
  intros Hd. assert (0 ≤ (q - d) * (q + d)); [|lia].
  apply Z.mul_nonneg_nonneg; lia.
Qed.

Lemma bounds_of_sq_lt d q :
  0 ≤ q → d * d < (q + 1) * (q + 1) → - q ≤ d ≤ q.
Proof.
  intros Hq Hlt.
  destruct (decide (q + 1 ≤ d)) as [Hhi|Hhi].
  { assert (0 ≤ (d - (q + 1)) * (d + (q + 1))); [|lia].
    apply Z.mul_nonneg_nonneg; lia. }
  destruct (decide (d ≤ - (q + 1))) as [Hlo|Hlo]; [|lia].
  assert (0 ≤ (- d - (q + 1)) * (- d + (q + 1))); [|lia].
  apply Z.mul_nonneg_nonneg; lia.
Qed.

(** The row range and the per-row span describe the integer disc. *)
Lemma span_in_disc cx cy r x y :
  0 ≤ r →
  (cy - r ≤ y ≤ cy + r ∧
   cx - Z.sqrt (r * r - (y - cy) * (y - cy)) ≤ x
     ≤ cx + Z.sqrt (r * r - (y - cy) * (y - cy))) ↔
  in_disc cx cy r x y.
Proof.
  intros Hr. unfold in_disc.
  set (dy := y - cy). set (dx := x - cx).
  split.
  - intros (Hy & Hx).
    pose proof (sq_le_of_bounds dy r ltac:(subst dy; lia)) as Hdy.
    assert (0 ≤ r * r - dy * dy) as Hn by lia.
    pose proof (Z.sqrt_spec _ Hn) as Hs. cbv zeta in Hs.
    set (q := Z.sqrt (r * r - dy * dy)) in *.
    pose proof (sq_le_of_bounds dx q ltac:(subst dx; lia)). lia.
  - intros Hd.
    pose proof (Z.square_nonneg dx) as Hdx0.
    assert (0 ≤ r * r - dy * dy) as Hn by lia.
    pose proof (Z.sqrt_spec _ Hn) as Hs. cbv zeta in Hs.
    pose proof (Z.sqrt_nonneg (r * r - dy * dy)) as Hs0.
    set (q := Z.sqrt (r * r - dy * dy)) in *.
    pose proof (bounds_of_sq_lt dy r Hr ltac:(lia)).
    pose proof (bounds_of_sq_lt dx q Hs0 ltac:(lia)).
    subst dx dy. lia.
Qed.

(** The stores of one call, by pixel. *)
Lemma draw_circle_stores_pixel fbW cx cy r color x0 y0 x1 y1 s :
  s ∈ draw_circle_stores fbW cx cy r color x0 y0 x1 y1 ↔
  st_val s = color ∧
  st_addr s = size_add (size_mul (size_t (st_y s)) (size_t fbW))
                       (size_t (st_x s)) ∧
  0 ≤ r ∧ in_disc cx cy r (st_x s) (st_y s) ∧
  in_rect x0 y0 x1 y1 (st_x s) (st_y s).
Proof.
  rewrite elem_of_draw_circle_stores. unfold in_rect.
  destruct (decide (0 ≤ r)) as [Hr|Hr].
  - rewrite <- (span_in_disc cx cy r (st_x s) (st_y s) Hr). split.
    + intros (? & ? & ? & ?). repeat split; (done || lia).
    + intros (? & ? & ? & (? & ?) & ? & ?). repeat split; (done || lia).
  - split; [lia|]. intros (_ & _ & ? & _). lia.
Qed.

(** ** Lists: lemmas on loops that emit at most one matching effect *)

Section ListFacts.
Context {A B : Type}.

Lemma filter_bind (Q : B → Prop) `{!∀ b, Decision (Q b)}
    (f : A → list B) (l : list A) :
  filter Q (l ≫= f) = l ≫= (λ a, filter Q (f a)).
Proof.
  induction l as [|a l IH]; [done|].
  by rewrite !bind_cons, filter_app, IH.
Qed.

(** A loop over distinct indices of which only [j] emits anything. *)
Lemma bind_unique `{!EqDecision A} (f : A → list B) (l : list A) (j : A) :
  NoDup l → (∀ a, a ∈ l → a ≠ j → f a = []) →
  l ≫= f = if decide (j ∈ l) then f j else [].
Proof.
  induction 1 as [|a l Hnotin Hnd IH]; intros Hf.
  { rewrite decide_False; [done|]. apply not_elem_of_nil. }
  rewrite bind_cons, IH by (intros; apply Hf; [by right|done]).
  destruct (decide (a = j)) as [->|Hne].
  - rewrite decide_False by done. rewrite decide_True by (by left).
    by rewrite app_nil_r.
  - rewrite (Hf a) by (by left || done). simpl.
    destruct (decide (j ∈ l)).
    + rewrite decide_True; [done|by right].
    + rewrite decide_False; [done|].
      intros [->|?]%elem_of_cons; done.
Qed.

Lemma bind_if_singleton (R : A → Prop) `{!∀ a, Decision (R a)}
    (g : A → B) (l : list A) :
  l ≫= (λ a, if decide (R a) then [g a] else []) = g <$> filter R l.
Proof.
  induction l as [|a l IH]; [done|].
  rewrite bind_cons, filter_cons, IH. by destruct (decide (R a)).
Qed.

Lemma filter_fmap_comm (f : A → B) (Q : B → Prop) `{!∀ b, Decision (Q b)}
    (l : list A) :
  filter Q (f <$> l) = f <$> filter (λ a, Q (f a)) l.
Proof.
  induction l as [|a l IH]; [done|].
  rewrite fmap_cons, !filter_cons, IH. by destruct (decide (Q (f a))).
Qed.
End ListFacts.

Lemma collect_le_unique {A} lo hi (body : Z → list A) (j : Z) :
  (∀ i, lo ≤ i ≤ hi → i ≠ j → body i = []) →
  collect_le lo hi body = if decide (lo ≤ j ≤ hi) then body j else [].
Proof.
  intros Hb. unfold collect_le.
  rewrite (bind_unique body _ j (NoDup_seqZ _ _)).
  - destruct (decide (lo ≤ j ≤ hi)) as [Hj|Hj].
    + rewrite decide_True; [done|]. apply elem_of_seqZ. lia.
    + rewrite decide_False; [done|]. rewrite elem_of_seqZ. lia.
  - intros i Hi%elem_of_seqZ Hne. apply Hb; [lia|done].
Qed.

Lemma filter_collect_le {A} (Q : A → Prop) `{!∀ a, Decision (Q a)}
    lo hi (body : Z → list A) :
  filter Q (collect_le lo hi body) = collect_le lo hi (λ i, filter Q (body i)).
Proof. apply filter_bind. Qed.

Lemma last_store_filter x y ss :
  last_store x y ss = last (st_val <$> filter (at_pixel x y) ss).
Proof.
  induction ss as [|s ss IH]; [done|].
  simpl. rewrite IH, filter_cons. case_decide.
  - by rewrite fmap_cons, last_cons.
  - by destruct (last _).
Qed.

(** The particles of [P], read through their indices. *)
Lemma particles_by_index (P : ParticlesSOA) :
  particle P <$> seqZ 0 (p_n P) = P.
Proof.
  apply list_eq. intros i. rewrite list_lookup_fmap. unfold p_n.
  destruct (decide (i < length P)%nat) as [Hi|Hi].
  - rewrite lookup_seqZ_lt by lia. simpl. unfold particle.
    rewrite Z.add_0_l, Nat2Z.id.
    destruct (lookup_lt_is_Some_2 P i Hi) as [p Hp].
    rewrite Hp. f_equal. by apply list_lookup_total_correct.
  - rewrite lookup_seqZ_ge by lia. simpl. symmetry.
    apply lookup_ge_None. lia.
Qed.

Lemma painter_by_index (P : ParticlesSOA) x y :
  painter P x y =
  last ((λ i, p_color (particle P i)) <$>
        filter (λ i, covers (particle P i) x y) (seqZ 0 (p_n P))).
Proof.
  unfold painter.
  assert (filter (λ p, covers p x y) P =
          particle P <$>
            filter (λ i, covers (particle P i) x y) (seqZ 0 (p_n P))) as ->.
  { pose proof (filter_fmap_comm (particle P) (λ p, covers p x y)
                  (seqZ 0 (p_n P))) as Hc.
    rewrite particles_by_index in Hc. exact Hc. }
  by rewrite <- list_fmap_compose.
Qed.

Lemma collect_le_nil {A} lo hi (body : Z → list A) :
  (∀ i, lo ≤ i ≤ hi → body i = []) → collect_le lo hi body = [].
Proof.
  intros Hb. rewrite (collect_le_unique lo hi body (lo - 1)).
  - rewrite decide_False; [done|lia].
  - intros i Hi _. by apply Hb.
Qed.

(** The stores of one call issued for a given pixel: exactly one if the pixel
    lies in the disc and in the clip rectangle, none otherwise. *)
Lemma draw_circle_stores_at fbW cx cy r color x0 y0 x1 y1 x y :
  filter (at_pixel x y) (draw_circle_stores fbW cx cy r color x0 y0 x1 y1) =
  if decide (0 ≤ r ∧ in_disc cx cy r x y ∧ in_rect x0 y0 x1 y1 x y)
  then [mkStore y x (size_add (size_mul (size_t y) (size_t fbW)) (size_t x))
                color]
  else [].
Proof.
  unfold draw_circle_stores. rewrite filter_collect_le.
  rewrite (collect_le_unique _ _ _ y); cycle 1.
  { intros yy _ Hne. rewrite filter_collect_le. apply collect_le_nil.
    intros xx _. apply filter_singleton_False; [exact []|].
    unfold at_pixel. simpl. lia. }
  rewrite filter_collect_le.
  rewrite (collect_le_unique _ _ _ x); cycle 1.
  { intros xx _ Hne. apply filter_singleton_False; [exact []|].
    unfold at_pixel. simpl. lia. }
  rewrite filter_singleton_True by done || exact [].
  unfold in_rect.
  destruct (decide (0 ≤ r)) as [Hr|Hr].
  - pose proof (span_in_disc cx cy r x y Hr) as Hspan.
    set (q := Z.sqrt (r * r - (y - cy) * (y - cy))) in *. clearbody q.
    destruct Hspan as [Hin Hout].
    destruct (decide (in_disc cx cy r x y)) as [Hd|Hd].
    + specialize (Hout Hd). clear Hin.
      destruct (decide (x0 ≤ x < x1 ∧ y0 ≤ y < y1)) as [Hrect|Hrect].
      * rewrite (decide_True (P := 0 ≤ r ∧ _)) by tauto.
        by rewrite !decide_True by lia.
      * rewrite (decide_False (P := 0 ≤ r ∧ _)) by tauto.
        destruct (decide (_ ≤ y ≤ _)); [|done].
        rewrite decide_False; [done|lia].
    + assert (¬ (cy - r ≤ y ≤ cy + r ∧ cx - q ≤ x ≤ cx + q)) as Hns by tauto.
      clear Hin Hout. rewrite (decide_False (P := 0 ≤ r ∧ _)) by tauto.
      destruct (decide (_ ≤ y ≤ _)); [|done].
      rewrite decide_False; [done|lia].
  - rewrite (decide_False (P := 0 ≤ r ∧ _)) by tauto.
    rewrite decide_False; [done|lia].
Qed.

(** ** Tile grid: lemmas *)

Section Grid.
Variable T : Z.
Hypothesis T_pos : 1 ≤ T.

Lemma tiles_of_bounds e :
  0 ≤ e → 0 ≤ tiles_of T e ∧ e ≤ T * tiles_of T e < e + T.
Proof.
  intros He. unfold tiles_of. rewrite Z.quot_div_nonneg by lia.
  pose proof (Z.div_mod (e + T - 1) T ltac:(lia)) as Hdm.
  pose proof (Z.mod_pos_bound (e + T - 1) T ltac:(lia)) as Hm.
  split; [apply Z.div_pos; lia|lia].
Qed.

Lemma tiles_of_le e : 0 ≤ e → tiles_of T e ≤ e.
Proof.
  intros He. destruct (tiles_of_bounds e He) as (H0 & Hlo & Hhi).
  destruct (decide (tiles_of T e ≤ e)); [done|]. nia.
Qed.

(** The tile column (or row) of a coordinate inside the framebuffer. *)
Lemma tile_of_coord e x :
  0 ≤ x < e →
  0 ≤ x `div` T < tiles_of T e ∧ T * (x `div` T) ≤ x < T * (x `div` T) + T.
Proof.
  intros Hx. destruct (tiles_of_bounds e ltac:(lia)) as (H0 & Hlo & Hhi).
  pose proof (Z.div_mod x T ltac:(lia)) as Hdm.
  pose proof (Z.mod_pos_bound x T ltac:(lia)) as Hm.
  assert (0 ≤ x `div` T) by (apply Z.div_pos; lia).
  repeat split; try lia. nia.
Qed.

Lemma coord_of_tile t x : T * t ≤ x < T * t + T → x `div` T = t.
Proof.
  intros Hx. symmetry. apply (Z.div_unique x T t (x - T * t)); lia.
Qed.
End Grid.

Lemma tid_split tiles_x tx ty :
  0 ≤ tx < tiles_x → 0 ≤ ty →
  (ty * tiles_x + tx) `rem` tiles_x = tx ∧
  (ty * tiles_x + tx) `quot` tiles_x = ty.
Proof.
  intros Htx Hty. assert (0 ≤ ty * tiles_x + tx) by nia.
  rewrite Z.rem_mod_nonneg, Z.quot_div_nonneg by lia. split; symmetry.
  - apply (Z.mod_unique _ tiles_x ty tx); lia.
  - apply (Z.div_unique _ tiles_x ty tx); lia.
Qed.

Lemma tid_join tiles_x tiles_y tid :
  0 ≤ tiles_x → 0 ≤ tiles_y → 0 ≤ tid < tiles_x * tiles_y →
  0 ≤ tid `rem` tiles_x < tiles_x ∧ 0 ≤ tid `quot` tiles_x < tiles_y ∧
  tid = tid `quot` tiles_x * tiles_x + tid `rem` tiles_x.
Proof.
  intros Hx Hy Htid. assert (0 < tiles_x) by nia.
  rewrite Z.rem_mod_nonneg, Z.quot_div_nonneg by lia.
  pose proof (Z.div_mod tid tiles_x ltac:(lia)) as Hdm.
  pose proof (Z.mod_pos_bound tid tiles_x ltac:(lia)) as Hm.
  assert (0 ≤ tid `div` tiles_x) by (apply Z.div_pos; lia).
  repeat split; try lia.
  apply Z.div_lt_upper_bound; lia.
Qed.

(** ** Binning pass: lemmas *)

Lemma run_pushes_app bins a b :
  run_pushes bins (a ++ b) = run_pushes bins a ≫= λ bins', run_pushes bins' b.
Proof.
  revert bins. induction a as [|e a IH]; intros bins; [done|].
  simpl. destruct (push_back bins e.1 e.2); simpl; [apply IH|done].
Qed.

Lemma for_each_run_pushes {A} (f : A → list (Z * Z)) l bins :
  for_each l (λ a bins', run_pushes bins' (f a)) bins =
  run_pushes bins (l ≫= f).
Proof.
  revert bins. induction l as [|a l IH]; intros bins; [done|].
  simpl. rewrite run_pushes_app.
  destruct (run_pushes bins (f a)); simpl; [apply IH|done].
Qed.

Lemma run_pushes_singleton bins k i :
  run_pushes bins [(k, i)] = push_back bins k i.
Proof. simpl. by destruct (push_back bins k i). Qed.

(** One iteration of the particle loop, and the binning pass, as the effect
    of the [push_back]s they issue. *)
Lemma bin_particle_pushes T tiles_x tiles_y i p bins :
  bin_particle T tiles_x tiles_y i p bins =
  run_pushes bins (bin_pushes T tiles_x tiles_y i p).
Proof.
  unfold bin_particle, bin_pushes, for_le, collect_le. cbv zeta.
  rewrite <- for_each_run_pushes. apply for_each_ext. intros ty bins'.
  rewrite <- for_each_run_pushes. apply for_each_ext. intros tx bins''.
  by rewrite run_pushes_singleton.
Qed.

Lemma binning_pushes_run T P fbW fbH :
  binning T P fbW fbH =
  run_pushes
    (replicate (Z.to_nat (size_t (tiles_of T fbW * tiles_of T fbH))) [])
    (binning_pushes T P fbW fbH).
Proof.
  unfold binning, binning_pushes, for_lt, collect_lt. cbv zeta.
  rewrite <- for_each_run_pushes. apply for_each_ext. intros i bins.
  apply bin_particle_pushes.
Qed.

Lemma run_pushes_spec es (bins : list (list Z)) :
  Forall (λ e, 0 ≤ e.1 < Z.of_nat (length bins)) es →
  ∃ bins', run_pushes bins es = Some bins' ∧ length bins' = length bins ∧
    ∀ k, 0 ≤ k < Z.of_nat (length bins) →
      bins' !! Z.to_nat k =
      (λ b, b ++ (filter (λ e, e.1 = k) es).*2) <$> bins !! Z.to_nat k.
Proof.
  revert bins. induction es as [|e es IH]; intros bins Hok.
  { exists bins. repeat split. intros k Hk. simpl.
    destruct (bins !! Z.to_nat k); simpl; [|done]. by rewrite app_nil_r. }
  apply Forall_cons in Hok as [He Hok].
  simpl. unfold push_back. rewrite decide_True by lia. simpl.
  destruct (IH (alter (λ b, b ++ [e.2]) (Z.to_nat e.1) bins))
    as (bins' & Hrun & Hlen & Hpt).
  { by rewrite length_alter. }
  exists bins'. split; [done|]. split; [by rewrite Hlen, length_alter|].
  intros k Hk. rewrite Hpt by (by rewrite length_alter).
  rewrite filter_cons. destruct (decide (e.1 = k)) as [<-|Hne].
  - rewrite list_lookup_alter_eq.
    destruct (bins !! Z.to_nat e.1); simpl; [|done].
    by rewrite <- app_assoc.
  - rewrite list_lookup_alter_ne by lia. done.
Qed.

Section Binning.
Variable T : Z.
Hypothesis T_pos : 1 ≤ T.
Variables fbW fbH : Z.
Hypothesis W_range : 0 ≤ fbW < int_max.
Hypothesis H_range : 0 ≤ fbH < int_max.

Lemma tiles_range :
  0 ≤ tiles_of T fbW < int_max ∧ 0 ≤ tiles_of T fbH < int_max.
Proof.
  pose proof (tiles_of_bounds T T_pos fbW ltac:(lia)).
  pose proof (tiles_of_bounds T T_pos fbH ltac:(lia)).
  pose proof (tiles_of_le T T_pos fbW ltac:(lia)).
  pose proof (tiles_of_le T T_pos fbH ltac:(lia)). lia.
Qed.

Lemma total_tiles_range :
  0 ≤ tiles_of T fbW * tiles_of T fbH < size_max.
Proof.
  destruct tiles_range as [Hx Hy]. unfold int_max, size_max in *. nia.
Qed.

(** The bin index [(size_t)ty * tiles_x + tx] of a tile of the grid. *)
Lemma bin_index tx ty :
  0 ≤ tx < tiles_of T fbW → 0 ≤ ty < tiles_of T fbH →
  size_add (size_mul (size_t ty) (size_t (tiles_of T fbW))) (size_t tx)
    = ty * tiles_of T fbW + tx ∧
  0 ≤ ty * tiles_of T fbW + tx < tiles_of T fbW * tiles_of T fbH.
Proof.
  intros Htx Hty. pose proof total_tiles_range as Htot.
  assert (0 ≤ ty * tiles_of T fbW + tx < tiles_of T fbW * tiles_of T fbH)
    by nia.
  split; [|done]. apply size_index; lia.
Qed.

(** The pushes of one particle into the bin of tile [(tx, ty)]: one if the
    tile lies in the clamped index box, none otherwise. *)
Lemma bin_pushes_at i p tx ty :
  0 ≤ tx < tiles_of T fbW → 0 ≤ ty < tiles_of T fbH →
  filter (λ e, e.1 = ty * tiles_of T fbW + tx)
         (bin_pushes T (tiles_of T fbW) (tiles_of T fbH) i p) =
  if decide (binned T (tiles_of T fbW) (tiles_of T fbH) p tx ty)
  then [(ty * tiles_of T fbW + tx, i)] else [].
Proof.
  intros Htx Hty. unfold bin_pushes. rewrite filter_collect_le.
  rewrite (collect_le_unique _ _ _ ty); cycle 1.
  { intros ty' Hty' Hne. rewrite filter_collect_le. apply collect_le_nil.
    intros tx' Htx'. apply filter_singleton_False; [exact []|]. simpl.
    destruct (bin_index tx' ty') as [-> _]; [lia|lia|].
    intros Heq. apply Hne.
    by destruct (flat_index_inj (tiles_of T fbW) tx' ty' tx ty) as [_ ?];
      [lia|lia|done|]. }
  rewrite filter_collect_le.
  rewrite (collect_le_unique _ _ _ tx); cycle 1.
  { intros tx' Htx' Hne. apply filter_singleton_False; [exact []|]. simpl.
    destruct (bin_index tx' ty) as [-> _]; [lia|lia|]. lia. }
  rewrite filter_singleton_True; cycle 1.
  { exact []. } { simpl. by destruct (bin_index tx ty) as [-> _]. }
  destruct (bin_index tx ty) as [-> _]; [done|done|].
  unfold binned. repeat case_decide; try done; exfalso; lia.
Qed.

Lemma binning_pushes_range P :
  Forall (λ e, 0 ≤ e.1 < tiles_of T fbW * tiles_of T fbH)
         (binning_pushes T P fbW fbH).
Proof.
  apply Forall_forall. intros e.
  unfold binning_pushes. rewrite elem_of_collect_lt.
  intros (i & _ & He). unfold bin_pushes in He.
  apply elem_of_collect_le in He as (ty & Hty & He).
  apply elem_of_collect_le in He as (tx & Htx & He).
  apply list_elem_of_singleton in He as ->. simpl.
  destruct (bin_index tx ty) as [-> ?]; [lia|lia|lia].
Qed.

(** The bins after the binning pass: the bin of each tile holds, in
    ascending order, the indices of the particles whose clamped index box
    contains the tile. *)
Lemma binning_spec P :
  ∃ bins, binning T P fbW fbH = Some bins ∧
    length bins = Z.to_nat (tiles_of T fbW * tiles_of T fbH) ∧
    ∀ tx ty, 0 ≤ tx < tiles_of T fbW → 0 ≤ ty < tiles_of T fbH →
      bins !! Z.to_nat (ty * tiles_of T fbW + tx) =
      Some (filter (λ i, binned T (tiles_of T fbW) (tiles_of T fbH)
                                (particle P i) tx ty)
                   (seqZ 0 (p_n P))).
Proof.
  pose proof total_tiles_range as Htot.
  rewrite binning_pushes_run, size_t_small by done.
  set (total := tiles_of T fbW * tiles_of T fbH) in *.
  destruct (run_pushes_spec (binning_pushes T P fbW fbH)
              (replicate (Z.to_nat total) []))
    as (bins & Hrun & Hlen & Hpt).
  { rewrite length_replicate, Z2Nat.id by lia. apply binning_pushes_range. }
  rewrite length_replicate in Hlen, Hpt.
  exists bins. split; [done|]. split; [done|].
  intros tx ty Htx Hty.
  destruct (bin_index tx ty Htx Hty) as [_ Hk]. fold total in Hk.
  rewrite Hpt by lia. rewrite lookup_replicate_2 by lia. simpl. f_equal.
  unfold binning_pushes, collect_lt. cbv zeta. rewrite Z.sub_0_r.
  rewrite filter_bind.
  rewrite (list_bind_ext _
    (λ i, if decide (binned T (tiles_of T fbW) (tiles_of T fbH)
                            (particle P i) tx ty)
          then [(ty * tiles_of T fbW + tx, i)] else [])
    _ (seqZ 0 (p_n P))); [|intros i; by apply bin_pushes_at|done].
  rewrite (bind_if_singleton
    (λ i, binned T (tiles_of T fbW) (tiles_of T fbH) (particle P i) tx ty)
    (λ i, (ty * tiles_of T fbW + tx, i))).
  rewrite <- list_fmap_compose. apply list_fmap_id.
Qed.
End Binning.

(** ** Tile pass: lemmas *)

Lemma quot_nonpos a b : a ≤ 0 → 0 < b → a `quot` b ≤ 0.
Proof.
  intros Ha Hb. replace a with (- - a) by lia.
  rewrite Z.quot_opp_l by lia.
  pose proof (Z.quot_pos (- a) b ltac:(lia) Hb). lia.
Qed.

Lemma covers_in_bbox p x y : covers p x y → in_bbox p x y.
Proof.
  unfold covers, in_disc, in_bbox. intros (Hr & Hd).
  pose proof (Z.square_nonneg (x - p_x p)).
  pose proof (Z.square_nonneg (y - p_y p)).
  pose proof (bounds_of_sq_lt (x - p_x p) (p_r p) Hr ltac:(lia)).
  pose proof (bounds_of_sq_lt (y - p_y p) (p_r p) Hr ltac:(lia)). lia.
Qed.

Section Raster.
Variable T : Z.
Hypothesis T_pos : 1 ≤ T.
Variables fbW fbH : Z.
Hypothesis W_range : 0 ≤ fbW < int_max.
Hypothesis H_range : 0 ≤ fbH < int_max.
Variable P : ParticlesSOA.
Variable bins : list (list Z).
Hypothesis bins_binning : binning T P fbW fbH = Some bins.

Lemma tile_rect tx ty :
  0 ≤ tx < tiles_of T fbW → 0 ≤ ty < tiles_of T fbH →
  tile_x0 T fbW (ty * tiles_of T fbW + tx) = tx * T ∧
  tile_x1 T fbW (ty * tiles_of T fbW + tx) = Z.min (tx * T + T) fbW ∧
  tile_y0 T fbW (ty * tiles_of T fbW + tx) = ty * T ∧
  tile_y1 T fbW fbH (ty * tiles_of T fbW + tx) = Z.min (ty * T + T) fbH.
Proof.
  intros Htx Hty. unfold tile_x1, tile_y1, tile_x0, tile_y0.
  by destruct (tid_split (tiles_of T fbW) tx ty) as [-> ->]; [lia|lia|].
Qed.

(** A tile rectangle lies inside the framebuffer. *)
Lemma tile_rect_in_fb tx ty x y :
  0 ≤ tx < tiles_of T fbW → 0 ≤ ty < tiles_of T fbH →
  in_rect (tx * T) (ty * T) (Z.min (tx * T + T) fbW)
          (Z.min (ty * T + T) fbH) x y →
  0 ≤ x < fbW ∧ 0 ≤ y < fbH.
Proof. unfold in_rect. intros. nia. Qed.

(** The tile of the grid that owns a pixel. *)
Lemma tile_rect_owner tx ty x y :
  0 ≤ tx < tiles_of T fbW → 0 ≤ ty < tiles_of T fbH →
  in_rect (tx * T) (ty * T) (Z.min (tx * T + T) fbW)
          (Z.min (ty * T + T) fbH) x y ↔
  (0 ≤ x < fbW ∧ 0 ≤ y < fbH) ∧ tx = x `div` T ∧ ty = y `div` T.
Proof.
  intros Htx Hty. split.
  - intros Hin. split; [by eapply tile_rect_in_fb|].
    unfold in_rect in Hin.
    rewrite (coord_of_tile T tx x), (coord_of_tile T ty y)
      by lia. done.
  - intros ((Hx & Hy) & -> & ->).
    pose proof (tile_of_coord T T_pos fbW x Hx).
    pose proof (tile_of_coord T T_pos fbH y Hy).
    unfold in_rect. lia.
Qed.

(** Binning is complete: a particle whose bounding square meets a tile
    rectangle at some pixel is pushed to that tile's bin. *)
Lemma binned_complete p tx ty x y :
  0 ≤ tx < tiles_of T fbW → 0 ≤ ty < tiles_of T fbH →
  in_bbox p x y →
  in_rect (tx * T) (ty * T) (Z.min (tx * T + T) fbW)
          (Z.min (ty * T + T) fbH) x y →
  binned T (tiles_of T fbW) (tiles_of T fbH) p tx ty.
Proof.
  intros Htx Hty (Hbx & Hby) (Hx & Hy). unfold binned.
  assert (∀ a z t, 0 ≤ t → a ≤ z → T * t ≤ z < T * t + T →
                   a `quot` T ≤ t) as Hlo.
  { intros a z t Ht Haz Hz. destruct (decide (a ≤ 0)).
    - pose proof (quot_nonpos a T ltac:(lia) ltac:(lia)). lia.
    - rewrite Z.quot_div_nonneg by lia.
      rewrite <- (coord_of_tile T t z) by lia.
      apply Z.div_le_mono; lia. }
  assert (∀ b z t, 0 ≤ t → z ≤ b → T * t ≤ z → t ≤ b `quot` T) as Hhi.
  { intros b z t Ht Hzb Hz. assert (0 ≤ T * t) by nia.
    rewrite Z.quot_div_nonneg by lia.
    apply Z.div_le_lower_bound; lia. }
  pose proof (Hlo (p_x p - p_r p) x tx).
  pose proof (Hlo (p_y p - p_r p) y ty).
  pose proof (Hhi (p_x p + p_r p) x tx).
  pose proof (Hhi (p_y p + p_r p) y ty).
  lia.
Qed.

Lemma bin_lookup tx ty :
  0 ≤ tx < tiles_of T fbW → 0 ≤ ty < tiles_of T fbH →
  bin_at bins (ty * tiles_of T fbW + tx) =
  filter (λ i, binned T (tiles_of T fbW) (tiles_of T fbH)
                      (particle P i) tx ty)
         (seqZ 0 (p_n P)).
Proof.
  intros Htx Hty.
  destruct (binning_spec T T_pos fbW fbH W_range H_range P)
    as (bins' & Hb & _ & Hpt).
  rewrite bins_binning in Hb. injection Hb as <-.
  pose proof (total_tiles_range T T_pos fbW fbH W_range H_range).
  destruct (bin_index T T_pos fbW fbH W_range H_range tx ty Htx Hty)
    as [_ Hk].
  unfold bin_at. rewrite size_t_small by lia.
  apply list_lookup_total_correct. by apply Hpt.
Qed.

(** The stores of one tile issued for a given pixel: one per covering
    particle, in ascending particle index, if the pixel lies in the tile
    rectangle; none otherwise. *)
Lemma tile_stores_at tx ty x y :
  0 ≤ tx < tiles_of T fbW → 0 ≤ ty < tiles_of T fbH →
  filter (at_pixel x y)
         (tile_stores T P fbW fbH bins (ty * tiles_of T fbW + tx)) =
  if decide (in_rect (tx * T) (ty * T) (Z.min (tx * T + T) fbW)
                     (Z.min (ty * T + T) fbH) x y)
  then (λ i, mkStore y x
               (size_add (size_mul (size_t y) (size_t fbW)) (size_t x))
               (p_color (particle P i)))
         <$> filter (λ i, covers (particle P i) x y) (seqZ 0 (p_n P))
  else [].
Proof.
  intros Htx Hty. unfold tile_stores. cbv zeta.
  destruct (tile_rect tx ty Htx Hty) as (-> & -> & -> & ->).
  rewrite bin_lookup by done. rewrite filter_bind.
  set (bin := filter _ (seqZ 0 (p_n P))).
  set (rect := in_rect (tx * T) (ty * T) (Z.min (tx * T + T) fbW)
                       (Z.min (ty * T + T) fbH) x y).
  rewrite (list_bind_ext _
    (λ i, if decide (covers (particle P i) x y ∧ rect)
          then [mkStore y x
                  (size_add (size_mul (size_t y) (size_t fbW)) (size_t x))
                  (p_color (particle P i))]
          else []) _ bin); [| |done]; cycle 1.
  { intros i. rewrite draw_circle_stores_at. unfold covers, rect.
    repeat case_decide; try done; exfalso; tauto. }
  rewrite (bind_if_singleton (λ i, covers (particle P i) x y ∧ rect)).
  subst bin. rewrite list_filter_filter.
  destruct (decide rect) as [Hrect|Hrect].
  - f_equal. apply list_filter_iff. intros i. split; [tauto|].
    intros Hc. split; [by split|].
    apply (binned_complete _ _ _ x y); try done.
    by apply covers_in_bbox.
  - rewrite (elem_of_nil_inv (filter _ _)); [done|].
    intros i. rewrite list_elem_of_filter. tauto.
Qed.

Lemma flat_index_size x y :
  0 ≤ x < fbW → 0 ≤ y < fbH →
  size_add (size_mul (size_t y) (size_t fbW)) (size_t x) = y * fbW + x.
Proof.
  intros Hx Hy. pose proof (flat_index_lt fbW fbH x y Hx Hy).
  apply size_index; try lia. unfold int_max, size_max in *. nia.
Qed.

(** Every store of the tile pass targets a pixel of the framebuffer, at its
    flat index. *)
Lemma raster_stores_ok order :
  (∀ tid, tid ∈ order → 0 ≤ tid < tiles_of T fbW * tiles_of T fbH) →
  Forall (store_ok fbW fbH) (raster_stores T P fbW fbH bins order).
Proof.
  intros Horder. apply Forall_forall. intros s.
  unfold raster_stores. rewrite list_elem_of_bind.
  intros (tid & Hs & Htid).
  destruct (tiles_range T T_pos fbW fbH W_range H_range) as [Htx0 Hty0].
  destruct (tid_join (tiles_of T fbW) (tiles_of T fbH) tid)
    as (Htx & Hty & Heq); [lia|lia|by apply Horder|].
  unfold tile_stores in Hs. cbv zeta in Hs.
  apply list_elem_of_bind in Hs as (idx & Hs & _).
  apply draw_circle_stores_pixel in Hs as (_ & Haddr & _ & _ & Hrect).
  rewrite Heq in Hrect.
  destruct (tile_rect _ _ Htx Hty) as (Hx0 & Hx1 & Hy0 & Hy1).
  rewrite Hx0, Hx1, Hy0, Hy1 in Hrect.
  apply tile_rect_in_fb in Hrect as [Hx Hy]; [|done|done].
  unfold store_ok. rewrite Haddr. by rewrite flat_index_size.
Qed.

(** The stores of the whole tile pass issued for a pixel of the
    framebuffer, for tiles taken in any order without repetition: the tile
    owning the pixel issues one store per covering particle, in ascending
    particle index, and no other tile issues any. *)
Lemma raster_stores_at order x y :
  NoDup order →
  (∀ tid, tid ∈ order → 0 ≤ tid < tiles_of T fbW * tiles_of T fbH) →
  0 ≤ x < fbW → 0 ≤ y < fbH →
  filter (at_pixel x y) (raster_stores T P fbW fbH bins order) =
  if decide (y `div` T * tiles_of T fbW + x `div` T ∈ order)
  then (λ i, mkStore y x (y * fbW + x) (p_color (particle P i)))
         <$> filter (λ i, covers (particle P i) x y) (seqZ 0 (p_n P))
  else [].
Proof.
  intros Hnd Horder Hx Hy. unfold raster_stores. rewrite filter_bind.
  destruct (tiles_range T T_pos fbW fbH W_range H_range) as [Htx0 Hty0].
  destruct (tile_of_coord T T_pos fbW x Hx) as [Htx _].
  destruct (tile_of_coord T T_pos fbH y Hy) as [Hty _].
  rewrite (bind_unique _ order (y `div` T * tiles_of T fbW + x `div` T) Hnd);
    cycle 1.
  { intros tid Htid Hne.
    destruct (tid_join (tiles_of T fbW) (tiles_of T fbH) tid)
      as (Htx' & Hty' & Heq); [lia|lia|by apply Horder|].
    rewrite Heq, tile_stores_at by done.
    rewrite decide_False; [done|].
    intros (_ & Hex & Hey)%tile_rect_owner; [|done|done].
    apply Hne. rewrite Heq. by rewrite Hex, Hey. }
  case_decide; [|done].
  rewrite tile_stores_at by done.
  rewrite decide_True by (by apply tile_rect_owner).
  by rewrite flat_index_size.
Qed.

(** The last store of the tile pass at a pixel is the highest-index
    covering particle's. *)
Lemma raster_last_store order x y :
  order ≡ₚ tile_order T fbW fbH →
  0 ≤ x < fbW → 0 ≤ y < fbH →
  last_store x y (raster_stores T P fbW fbH bins order) = painter P x y.
Proof.
  intros Hperm Hx Hy.
  rewrite last_store_filter, raster_stores_at; try done.
  - destruct (tile_of_coord T T_pos fbW x Hx) as [Htx _].
    destruct (tile_of_coord T T_pos fbH y Hy) as [Hty _].
    rewrite decide_True.
    + rewrite <- list_fmap_compose. symmetry. apply painter_by_index.
    + rewrite Hperm. apply elem_of_seqZ. nia.
  - rewrite Hperm. apply NoDup_seqZ.
  - intros tid. rewrite Hperm. unfold tile_order.
    rewrite elem_of_seqZ. lia.
Qed.
End Raster.

(** ** The whole pass *)

(** Rendering with the tiles taken in any serial order runs without fault
    and leaves at each pixel the colour of the highest-index particle whose
    disc contains it, or the old value if there is none. *)
Lemma render_in_order_spec T order P fb :
  1 ≤ T → fb_wf fb → order ≡ₚ tile_order T (W fb) (H fb) →
  ∃ fb', render_in_order T order P fb = Some fb' ∧
    W fb' = W fb ∧ H fb' = H fb ∧ fb_wf fb' ∧
    ∀ x y, 0 ≤ x < W fb → 0 ≤ y < H fb →
      pixel fb' x y =
      match painter P x y with
      | Some c => Some c
      | None => pixel fb x y
      end.
Proof.
  intros HT Hwf Hperm. pose proof Hwf as (HW & HH & Hlen).
  destruct (binning_spec T HT (W fb) (H fb) HW HH P) as (bins & Hb & _).
  rewrite render_in_order_stores, Hb. simpl.
  destruct (exec_spec fb (raster_stores T P (W fb) (H fb) bins order) Hwf)
    as (fb' & Hex & HW' & HH' & Hwf' & Hpt).
  { apply (raster_stores_ok T HT (W fb) (H fb) HW HH P bins).
    intros tid. rewrite Hperm. unfold tile_order. rewrite elem_of_seqZ. lia. }
  exists fb'. do 4 (split; [done|]).
  intros x y Hx Hy. rewrite Hpt by done.
  by rewrite (raster_last_store T HT (W fb) (H fb) HW HH P bins Hb).
Qed.

(** Two well-formed framebuffers of one size with the same pixels are
    equal. *)
Lemma fb_ext fb1 fb2 :
  fb_wf fb1 → fb_wf fb2 → W fb1 = W fb2 → H fb1 = H fb2 →
  (∀ x y, 0 ≤ x < W fb1 → 0 ≤ y < H fb1 → pixel fb1 x y = pixel fb2 x y) →
  fb1 = fb2.
Proof.
  destruct fb1 as [w1 h1 p1], fb2 as [w2 h2 p2]. unfold fb_wf, pixel. simpl.
  intros (? & ? & ?) (? & ? & ?) <- <- Hpt. f_equal.
  apply (pix_ext w1 h1); [lia|done|lia|done].
Qed.

(** ** The bins, by tile index *)

Lemma StronglySorted_seqZ m n : StronglySorted Z.lt (seqZ m n).
Proof.
  remember (Z.to_nat n) as k eqn:Hk. revert m n Hk.
  induction k as [|k IH]; intros m n Hk.
  - rewrite seqZ_nil by lia. constructor.
  - rewrite seqZ_cons by lia. apply StronglySorted_cons. split.
    + apply Forall_seqZ. lia.
    + apply IH. lia.
Qed.

Lemma StronglySorted_filter {A} (R : relation A) (Q : A → Prop)
    `{!∀ a, Decision (Q a)} (l : list A) :
  StronglySorted R l → StronglySorted R (filter Q l).
Proof.
  induction 1 as [|a l Hl IH Hall]; [constructor|].
  rewrite filter_cons. case_decide; [|done].
  apply StronglySorted_cons. split; [|done].
  apply Forall_forall. intros b [_ Hb]%list_elem_of_filter.
  by eapply Forall_forall in Hall.
Qed.

Lemma StronglySorted_lt_NoDup (l : list Z) : StronglySorted Z.lt l → NoDup l.
Proof.
  induction 1 as [|a l Hl IH Hall]; constructor; [|done].
  intros Ha. eapply Forall_forall in Hall; [|done]. lia.
Qed.

Lemma bin_at_spec T P fbW fbH bins tid :
  1 ≤ T → 0 ≤ fbW < int_max → 0 ≤ fbH < int_max →
  binning T P fbW fbH = Some bins →
  0 ≤ tid < tiles_of T fbW * tiles_of T fbH →
  bin_at bins tid =
  filter (λ i, binned T (tiles_of T fbW) (tiles_of T fbH) (particle P i)
                      (tid `rem` tiles_of T fbW) (tid `quot` tiles_of T fbW))
         (seqZ 0 (p_n P)).
Proof.
  intros HT HW HH Hb Htid.
  destruct (tiles_range T HT fbW fbH HW HH) as [Hx Hy].
  destruct (tid_join (tiles_of T fbW) (tiles_of T fbH) tid)
    as (Htx & Hty & Heq); [lia|lia|done|].
  rewrite Heq at 1. by apply (bin_lookup T HT fbW fbH HW HH P).
Qed.

(** One axis of the converse of completeness: a tile column inside the
    clamped index range of an interval that meets [0, e) is met by the
    interval. *)
Lemma binned_axis_meets T e c r t :
  1 ≤ T → 0 ≤ e →
  Z.max 0 ((c - r) `quot` T) ≤ t ≤ Z.min (tiles_of T e - 1) ((c + r) `quot` T) →
  (∃ z, c - r ≤ z ≤ c + r ∧ 0 ≤ z < e) →
  ∃ z, c - r ≤ z ≤ c + r ∧ t * T ≤ z < Z.min (t * T + T) e.
Proof.
  intros HT He Ht (z & Hz & Hze).
  destruct (tiles_of_bounds T HT e He) as (Hn0 & Hnlo & Hnhi).
  assert (T * t ≤ c + r) as Hhi.
  { rewrite (Z.quot_div_nonneg (c + r)) in Ht by lia.
    pose proof (Z.mul_div_le (c + r) T ltac:(lia)). nia. }
  assert (c - r < T * t + T) as Hlo.
  { destruct (decide (c - r < 0)); [nia|].
    rewrite (Z.quot_div_nonneg (c - r)) in Ht by lia.
    pose proof (Z.mul_succ_div_gt (c - r) T ltac:(lia)). nia. }
  exists (Z.max (c - r) (t * T)). nia.
Qed.

Lemma bin_at_sorted T P fbW fbH bins tid :
  1 ≤ T → 0 ≤ fbW < int_max → 0 ≤ fbH < int_max →
  binning T P fbW fbH = Some bins →
  0 ≤ tid < tiles_of T fbW * tiles_of T fbH →
  StronglySorted Z.lt (bin_at bins tid) ∧
  ∀ i, i ∈ bin_at bins tid → 0 ≤ i < p_n P.
Proof.
  intros HT HW HH Hb Htid.
  rewrite (bin_at_spec T P fbW fbH bins tid) by done. split.
  - apply StronglySorted_filter, StronglySorted_seqZ.
  - intros i [_ Hi%elem_of_seqZ]%list_elem_of_filter. lia.
Qed.

(** C10.  After the binning pass every bin is strictly increasing in
    particle index, hence holds each particle index at most once, and holds
    only indices of particles of the input. *)
Theorem bins_strictly_increasing P fbW fbH :
  0 ≤ fbW < int_max → 0 ≤ fbH < int_max →
  ∃ bins, binning TILE P fbW fbH = Some bins ∧
    Z.of_nat (length bins) = tiles_of TILE fbW * tiles_of TILE fbH ∧
    ∀ tid, 0 ≤ tid < tiles_of TILE fbW * tiles_of TILE fbH →
      StronglySorted Z.lt (bin_at bins tid) ∧
      NoDup (bin_at bins tid) ∧
      ∀ i, i ∈ bin_at bins tid → 0 ≤ i < p_n P.
Proof.
  intros HW HH. assert (1 ≤ TILE) as HT by done.
  destruct (binning_spec TILE HT fbW fbH HW HH P) as (bins & Hb & Hlen & _).
  pose proof (total_tiles_range TILE HT fbW fbH HW HH) as Htot.
  exists bins. split; [done|]. split; [lia|].
  intros tid Htid.
  destruct (bin_at_sorted TILE P fbW fbH bins tid) as [Hsorted Hidx];
    [done..|].
  split; [done|]. split; [by apply StronglySorted_lt_NoDup|done].
Qed.

Lemma bins_strictly_increasing_witness :
  ∃ bins,
    binning TILE [mkParticle 31 10 10 1; mkParticle 40 40 3 2] 64 64
      = Some bins ∧
    NoDup (bin_at bins 0).
Proof.
  destruct (bins_strictly_increasing
              [mkParticle 31 10 10 1; mkParticle 40 40 3 2] 64 64)
    as (bins & Hb & _ & Hall); [done|done|].
  exists bins. split; [done|].
  destruct (Hall 0) as (_ & Hnd & _); [done|done].
Defined.

(** C1, as amended.  The binning pass is complete and conservative.  The
    bin of a tile receives the index of a particle exactly when the tile's
    column and row lie in the particle's clamped tile-index box; every tile
    whose rectangle intersects the particle's bounding square receives it;
    if the bounding square intersects the framebuffer, only such tiles
    receive it; and a particle whose bounding square ends a whole tile edge
    or more before the framebuffer, or begins at or past the end of the tile
    grid, is placed in no bin. *)
Theorem binning_complete_conservative P fbW fbH :
  0 ≤ fbW < int_max → 0 ≤ fbH < int_max →
  ∃ bins, binning TILE P fbW fbH = Some bins ∧
    ∀ tid i,
      0 ≤ tid < tiles_of TILE fbW * tiles_of TILE fbH → 0 ≤ i < p_n P →
      let p := particle P i in
      let meets_tile :=
        bbox_meets p (tile_x0 TILE fbW tid) (tile_y0 TILE fbW tid)
                     (tile_x1 TILE fbW tid) (tile_y1 TILE fbW fbH tid) in
      (i ∈ bin_at bins tid ↔
         binned TILE (tiles_of TILE fbW) (tiles_of TILE fbH) p
                (tid `rem` tiles_of TILE fbW) (tid `quot` tiles_of TILE fbW)) ∧
      (meets_tile → i ∈ bin_at bins tid) ∧
      (bbox_meets p 0 0 fbW fbH → i ∈ bin_at bins tid → meets_tile) ∧
      (p_x p + p_r p ≤ - TILE ∨ TILE * tiles_of TILE fbW ≤ p_x p - p_r p ∨
       p_y p + p_r p ≤ - TILE ∨ TILE * tiles_of TILE fbH ≤ p_y p - p_r p →
       i ∉ bin_at bins tid).
Proof.
  intros HW HH. assert (1 ≤ TILE) as HT by done.
  destruct (binning_spec TILE HT fbW fbH HW HH P) as (bins & Hb & _).
  exists bins. split; [done|]. intros tid i Htid Hi p meets_tile.
  destruct (tiles_range TILE HT fbW fbH HW HH) as [Hx Hy].
  destruct (tid_join (tiles_of TILE fbW) (tiles_of TILE fbH) tid)
    as (Htx & Hty & Heq); [lia|lia|done|].
  set (tx := tid `rem` tiles_of TILE fbW) in *.
  set (ty := tid `quot` tiles_of TILE fbW) in *.
  assert (i ∈ bin_at bins tid ↔
          binned TILE (tiles_of TILE fbW) (tiles_of TILE fbH) p tx ty) as Hin.
  { rewrite (bin_at_spec TILE P fbW fbH bins tid) by done.
    rewrite list_elem_of_filter, elem_of_seqZ. fold tx ty p. intuition lia. }
  assert (meets_tile ↔
          bbox_meets p (tx * TILE) (ty * TILE) (Z.min (tx * TILE + TILE) fbW)
                       (Z.min (ty * TILE + TILE) fbH)) as Hmeets.
  { unfold meets_tile. rewrite Heq.
    by destruct (tile_rect TILE fbW fbH tx ty Htx Hty) as (-> & -> & -> & ->). }
  split; [done|]. split; [|split].
  - intros Hm. apply Hmeets in Hm as (x & y & Hbb & Hrect). apply Hin.
    by eapply (binned_complete TILE HT fbW fbH).
  - intros (x & y & (Hbx & Hby) & (Hfx & Hfy)) [Hbinx Hbiny]%Hin.
    apply Hmeets.
    destruct (binned_axis_meets TILE fbW (p_x p) (p_r p) tx)
      as (x' & Hx1 & Hx2); [done|lia|done|exists x; lia|].
    destruct (binned_axis_meets TILE fbH (p_y p) (p_r p) ty)
      as (y' & Hy1 & Hy2); [done|lia|done|exists y; lia|].
    exists x', y'. unfold in_bbox, in_rect. lia.
  - intros Hfar [Hbinx Hbiny]%Hin.
    destruct (tiles_of_bounds TILE HT fbW ltac:(lia)) as (_ & Hwlo & _).
    destruct (tiles_of_bounds TILE HT fbH ltac:(lia)) as (_ & Hhlo & _).
    assert (∀ a, a ≤ - TILE → a `quot` TILE ≤ -1) as Hneg.
    { intros a Ha. replace a with (- - a) by lia.
      rewrite Z.quot_opp_l, Z.quot_div_nonneg by (unfold TILE in *; lia).
      pose proof (Z.div_le_lower_bound (- a) TILE 1 ltac:(done)
                    ltac:(unfold TILE in *; lia)). lia. }
    assert (∀ a n, 0 ≤ n → TILE * n ≤ a → n ≤ a `quot` TILE) as Hpos.
    { intros a n Hn Ha. assert (0 ≤ a) by (unfold TILE in *; lia).
      rewrite Z.quot_div_nonneg by done.
      by apply Z.div_le_lower_bound. }
    destruct Hfar as [Hf|[Hf|[Hf|Hf]]].
    + pose proof (Hneg _ Hf). lia.
    + pose proof (Hpos _ (tiles_of TILE fbW) ltac:(lia) Hf). lia.
    + pose proof (Hneg _ Hf). lia.
    + pose proof (Hpos _ (tiles_of TILE fbH) ltac:(lia) Hf). lia.
Qed.

Lemma binning_complete_conservative_witness :
  ∃ bins,
    binning TILE [mkParticle 31 10 10 1] 64 64 = Some bins ∧
    0 ∈ bin_at bins 1.
Proof.
  destruct (binning_complete_conservative [mkParticle 31 10 10 1] 64 64)
    as (bins & Hb & Hall); [done|done|].
  exists bins. split; [done|].
  destruct (Hall 1 0) as (_ & Hmeets & _); [done|done|].
  apply Hmeets. exists 32, 10. vm_compute. intuition congruence.
Defined.

(** C1, as stated, fails: a particle just left of the framebuffer, whose
    bounding square [-15, -5] × [5, 15] misses the 64 × 64 framebuffer
    and so every tile rectangle, is pushed to the bin of tile 0. *)
Lemma binning_exactness_counterexample :
  ∃ bins,
    binning TILE [mkParticle (-10) 10 5 1] 64 64 = Some bins ∧
    0 ∈ bin_at bins 0 ∧
    ¬ bbox_meets (mkParticle (-10) 10 5 1) 0 0 64 64 ∧
    ¬ bbox_meets (mkParticle (-10) 10 5 1)
        (tile_x0 TILE 64 0) (tile_y0 TILE 64 0)
        (tile_x1 TILE 64 0) (tile_y1 TILE 64 64 0).
Proof.
  exists [[0]; []; []; []]. split; [by vm_compute|].
  split; [by left|].
  assert (tile_x0 TILE 64 0 = 0) as -> by reflexivity.
  assert (tile_x1 TILE 64 0 = 32) as -> by reflexivity.
  split; intros (x & y & (Hx & _) & (Hrx & _)); simpl in Hx; lia.
Qed.

(** ** Rendering: consequences *)

(** Two renderings of one framebuffer agree when at every pixel the same
    particle colour wins, whatever the tile edges and the tile orders. *)
Lemma render_ext T1 T2 order1 order2 P1 P2 fb :
  1 ≤ T1 → 1 ≤ T2 → fb_wf fb →
  order1 ≡ₚ tile_order T1 (W fb) (H fb) →
  order2 ≡ₚ tile_order T2 (W fb) (H fb) →
  (∀ x y, 0 ≤ x < W fb → 0 ≤ y < H fb → painter P1 x y = painter P2 x y) →
  render_in_order T1 order1 P1 fb = render_in_order T2 order2 P2 fb.
Proof.
  intros HT1 HT2 Hwf Ho1 Ho2 Hpaint.
  destruct (render_in_order_spec T1 order1 P1 fb HT1 Hwf Ho1)
    as (fb1 & -> & HW1 & HH1 & Hwf1 & Hpt1).
  destruct (render_in_order_spec T2 order2 P2 fb HT2 Hwf Ho2)
    as (fb2 & -> & HW2 & HH2 & Hwf2 & Hpt2).
  f_equal. apply fb_ext; [done|done|congruence|congruence|].
  intros x y Hx Hy. rewrite HW1 in Hx. rewrite HH1 in Hy.
  by rewrite Hpt1, Hpt2, Hpaint.
Qed.

Lemma tile_rect_tid T fbW fbH tid :
  1 ≤ T → 0 ≤ fbW → 0 ≤ fbH →
  0 ≤ tid < tiles_of T fbW * tiles_of T fbH →
  ∃ tx ty, 0 ≤ tx < tiles_of T fbW ∧ 0 ≤ ty < tiles_of T fbH ∧
    tid = ty * tiles_of T fbW + tx ∧
    tile_x0 T fbW tid = tx * T ∧
    tile_x1 T fbW tid = Z.min (tx * T + T) fbW ∧
    tile_y0 T fbW tid = ty * T ∧
    tile_y1 T fbW fbH tid = Z.min (ty * T + T) fbH.
Proof.
  intros HT HW HH Htid.
  destruct (tiles_of_bounds T HT fbW HW) as (Hx & _).
  destruct (tiles_of_bounds T HT fbH HH) as (Hy & _).
  destruct (tid_join (tiles_of T fbW) (tiles_of T fbH) tid)
    as (Htx & Hty & Heq); [done|done|done|].
  set (tx := tid `rem` tiles_of T fbW) in *.
  set (ty := tid `quot` tiles_of T fbW) in *.
  clearbody tx ty. subst tid. exists tx, ty.
  do 3 (split; [done|]). by apply tile_rect.
Qed.

(** C2.  Write safety of the tile pass.  On a framebuffer as its constructor
    builds it (in particular one with W ≥ 1, H ≥ 1 and W·H pixels), every
    tile rectangle lies in the framebuffer, every store of a tile is issued
    for a pixel of that tile's rectangle, every store of the pass has
    0 ≤ x < W, 0 ≤ y < H and the flat index y·W + x < W·H, and the pass
    runs without an out-of-range access. *)
Theorem write_safety P fb :
  fb_wf fb →
  ∃ bins, binning TILE P (W fb) (H fb) = Some bins ∧
    (∀ tid, 0 ≤ tid < tiles_of TILE (W fb) * tiles_of TILE (H fb) →
       0 ≤ tile_x0 TILE (W fb) tid ∧ tile_x1 TILE (W fb) tid ≤ W fb ∧
       0 ≤ tile_y0 TILE (W fb) tid ∧ tile_y1 TILE (W fb) (H fb) tid ≤ H fb ∧
       Forall (λ s, in_rect (tile_x0 TILE (W fb) tid) (tile_y0 TILE (W fb) tid)
                            (tile_x1 TILE (W fb) tid)
                            (tile_y1 TILE (W fb) (H fb) tid)
                            (st_x s) (st_y s))
              (tile_stores TILE P (W fb) (H fb) bins tid)) ∧
    Forall (λ s, 0 ≤ st_x s < W fb ∧ 0 ≤ st_y s < H fb ∧
                 st_addr s = st_y s * W fb + st_x s ∧
                 0 ≤ st_addr s < W fb * H fb)
           (raster_stores TILE P (W fb) (H fb) bins
                          (tile_order TILE (W fb) (H fb))) ∧
    is_Some (render_circles_tiled_omp P fb).
Proof.
  intros Hwf. pose proof Hwf as (HW & HH & Hlen).
  assert (1 ≤ TILE) as HT by done.
  destruct (binning_spec TILE HT (W fb) (H fb) HW HH P) as (bins & Hb & _).
  exists bins. split; [done|]. split; [|split].
  - intros tid Htid.
    destruct (tile_rect_tid TILE (W fb) (H fb) tid)
      as (tx & ty & Htx & Hty & _ & Hx0 & Hx1 & Hy0 & Hy1);
      [done|lia|lia|done|].
    do 4 (split; [nia|]).
    apply Forall_forall. intros s Hs. unfold tile_stores in Hs.
    apply list_elem_of_bind in Hs as (idx & Hs & _).
    by apply draw_circle_stores_pixel in Hs as (_ & _ & _ & _ & Hrect).
  - eapply Forall_impl.
    + apply (raster_stores_ok TILE HT (W fb) (H fb) HW HH P bins).
      intros tid. unfold tile_order. rewrite elem_of_seqZ. lia.
    + intros s (Hx & Hy & Haddr).
      pose proof (flat_index_lt (W fb) (H fb) _ _ Hx Hy). 
      repeat split; (done || lia).
  - destruct (render_in_order_spec TILE (tile_order TILE (W fb) (H fb)) P fb)
      as (fb' & Hr & _); [done|done|done|].
    by exists fb'.
Qed.

Lemma write_safety_witness :
  is_Some (render_circles_tiled_omp [mkParticle 1 1 5 7]
                                    (Framebuffer_new 3 2)).
Proof.
  destruct (write_safety [mkParticle 1 1 5 7] (Framebuffer_new 3 2))
    as (bins & _ & _ & _ & Hsome); [|done].
  by vm_compute.
Defined.

(** C3.  The tile rectangles of the grid partition the framebuffer: their
    union is exactly [0,W) × [0,H) and two distinct tiles share no pixel.
    Consequently processing the tiles in any permutation of the tile order
    gives the same final framebuffer as the ascending order of the
    sequential loop, and that run is without fault. *)
Theorem tiles_partition_order_independent T P fb order :
  1 ≤ T → fb_wf fb → order ≡ₚ tile_order T (W fb) (H fb) →
  (∀ x y, (0 ≤ x < W fb ∧ 0 ≤ y < H fb) ↔
     ∃ tid, 0 ≤ tid < tiles_of T (W fb) * tiles_of T (H fb) ∧
       in_rect (tile_x0 T (W fb) tid) (tile_y0 T (W fb) tid)
               (tile_x1 T (W fb) tid) (tile_y1 T (W fb) (H fb) tid) x y) ∧
  (∀ tid1 tid2 x y,
     0 ≤ tid1 < tiles_of T (W fb) * tiles_of T (H fb) →
     0 ≤ tid2 < tiles_of T (W fb) * tiles_of T (H fb) →
     in_rect (tile_x0 T (W fb) tid1) (tile_y0 T (W fb) tid1)
             (tile_x1 T (W fb) tid1) (tile_y1 T (W fb) (H fb) tid1) x y →
     in_rect (tile_x0 T (W fb) tid2) (tile_y0 T (W fb) tid2)
             (tile_x1 T (W fb) tid2) (tile_y1 T (W fb) (H fb) tid2) x y →
     tid1 = tid2) ∧
  render_in_order T order P fb = render_circles_tiled T P fb ∧
  is_Some (render_circles_tiled T P fb).
Proof.
  intros HT Hwf Hperm. pose proof Hwf as (HW & HH & Hlen).
  split; [|split; [|split]].
  - intros x y. split.
    + intros [Hx Hy].
      destruct (tile_of_coord T HT (W fb) x Hx) as [Htx Hxt].
      destruct (tile_of_coord T HT (H fb) y Hy) as [Hty Hyt].
      exists (y `div` T * tiles_of T (W fb) + x `div` T). split; [nia|].
      destruct (tile_rect T (W fb) (H fb) _ _ Htx Hty) as (-> & -> & -> & ->).
      by apply tile_rect_owner.
    + intros (tid & Htid & Hrect).
      destruct (tile_rect_tid T (W fb) (H fb) tid)
        as (tx & ty & Htx & Hty & _ & Hx0 & Hx1 & Hy0 & Hy1);
        [done|lia|lia|done|].
      rewrite Hx0, Hx1, Hy0, Hy1 in Hrect.
      by apply (tile_rect_in_fb T HT (W fb) (H fb) HW HH _ _ _ _ Htx Hty).
  - intros tid1 tid2 x y Htid1 Htid2 Hr1 Hr2.
    destruct (tile_rect_tid T (W fb) (H fb) tid1)
      as (tx1 & ty1 & Htx1 & Hty1 & Heq1 & Hx0 & Hx1 & Hy0 & Hy1);
      [done|lia|lia|done|].
    rewrite Hx0, Hx1, Hy0, Hy1 in Hr1.
    destruct (tile_rect_tid T (W fb) (H fb) tid2)
      as (tx2 & ty2 & Htx2 & Hty2 & Heq2 & Hx0' & Hx1' & Hy0' & Hy1');
      [done|lia|lia|done|].
    rewrite Hx0', Hx1', Hy0', Hy1' in Hr2.
    apply (tile_rect_owner T HT (W fb) (H fb) HW HH _ _ _ _ Htx1 Hty1)
      in Hr1 as (_ & -> & ->).
    apply (tile_rect_owner T HT (W fb) (H fb) HW HH _ _ _ _ Htx2 Hty2)
      in Hr2 as (_ & -> & ->).
    congruence.
  - by apply render_ext.
  - destruct (render_in_order_spec T (tile_order T (W fb) (H fb)) P fb)
      as (fb' & Hr & _); [done|done|done|].
    by exists fb'.
Qed.

Lemma tiles_partition_order_independent_witness :
  render_in_order 2 [3; 0; 2; 1] [mkParticle 1 1 5 7] (Framebuffer_new 3 4)
  = render_circles_tiled 2 [mkParticle 1 1 5 7] (Framebuffer_new 3 4).
Proof.
  apply (tiles_partition_order_independent 2 [mkParticle 1 1 5 7]
           (Framebuffer_new 3 4) [3; 0; 2; 1]).
  - done.
  - by vm_compute.
  - change (tile_order 2 (W (Framebuffer_new 3 4)) (H (Framebuffer_new 3 4)))
      with [0; 1; 2; 3].
    change [0; 1; 2; 3] with ([0; 1; 2] ++ [3]).
    apply Permutation_cons_app. simpl.
    apply perm_skip, perm_swap.
Defined.

(** ** One call of the scanline fill *)

Lemma draw_circle_last_store fbW cx cy r color x0 y0 x1 y1 x y :
  last_store x y (draw_circle_stores fbW cx cy r color x0 y0 x1 y1) =
  if decide (0 ≤ r ∧ in_disc cx cy r x y ∧ in_rect x0 y0 x1 y1 x y)
  then Some color else None.
Proof.
  rewrite last_store_filter, draw_circle_stores_at. by case_decide.
Qed.



(** ** The winning particle *)

Lemma painter_app P1 P2 x y :
  painter (P1 ++ P2) x y =
  match painter P2 x y with
  | Some c => Some c
  | None => painter P1 x y
  end.
Proof. unfold painter. by rewrite filter_app, fmap_app, last_app. Qed.

Lemma painter_cons p P x y :
  painter (p :: P) x y =
  match painter P x y with
  | Some c => Some c
  | None => if decide (covers p x y) then Some (p_color p) else None
  end.
Proof.
  rewrite (painter_app [p] P). destruct (painter P x y); [done|].
  unfold painter. rewrite filter_cons. by case_decide.
Qed.



(** ** The pass of the source, with [TILE = 32] and ascending tile order *)

Lemma render_omp_spec P fb :
  fb_wf fb →
  ∃ fb', render_circles_tiled_omp P fb = Some fb' ∧
    W fb' = W fb ∧ H fb' = H fb ∧ fb_wf fb' ∧
    ∀ x y, 0 ≤ x < W fb → 0 ≤ y < H fb →
      pixel fb' x y =
      match painter P x y with
      | Some c => Some c
      | None => pixel fb x y
      end.
Proof. intros Hwf. by apply render_in_order_spec. Qed.

Lemma render_omp_ext P1 P2 fb :
  fb_wf fb →
  (∀ x y, 0 ≤ x < W fb → 0 ≤ y < H fb → painter P1 x y = painter P2 x y) →
  render_circles_tiled_omp P1 fb = render_circles_tiled_omp P2 fb.
Proof. intros Hwf Hpaint. by apply render_ext. Qed.



(** C6.  A particle whose bounding square does not intersect the
    framebuffer has no effect: the pass gives the same final framebuffer
    with the particle as with the particle removed from the input. *)
Theorem offscreen_particle_no_effect P1 p P2 fb :
  fb_wf fb → ¬ bbox_meets p 0 0 (W fb) (H fb) →
  render_circles_tiled_omp (P1 ++ p :: P2) fb
    = render_circles_tiled_omp (P1 ++ P2) fb ∧
  is_Some (render_circles_tiled_omp (P1 ++ P2) fb).
Proof.
  intros Hwf Hoff. split.
  - apply render_omp_ext; [done|]. intros x y Hx Hy.
    rewrite !painter_app, painter_cons.
    destruct (painter P2 x y); [done|].
    rewrite decide_False; [done|]. intros Hc. apply Hoff.
    exists x, y. split; [by apply covers_in_bbox|]. by split.
  - destruct (render_omp_spec (P1 ++ P2) fb Hwf) as (fb' & -> & _). by eexists.
Qed.

Lemma offscreen_particle_no_effect_witness :
  render_circles_tiled_omp
    ([mkParticle 1 1 1 5] ++ mkParticle (-10) 1 5 7 :: [mkParticle 2 2 1 6])
    (Framebuffer_new 4 4)
  = render_circles_tiled_omp
      ([mkParticle 1 1 1 5] ++ [mkParticle 2 2 1 6]) (Framebuffer_new 4 4).
Proof.
  apply (offscreen_particle_no_effect
           [mkParticle 1 1 1 5] (mkParticle (-10) 1 5 7) [mkParticle 2 2 1 6]
           (Framebuffer_new 4 4)).
  - by vm_compute.
  - intros (x & y & ((_ & Hx) & _) & ((Hx0 & _) & _)). simpl in Hx. lia.
Defined.



Lemma pixel_clear fb c x y :
  fb_wf fb → 0 ≤ x < W fb → 0 ≤ y < H fb → pixel (clear fb c) x y = Some c.
Proof.
  intros (HW & HH & Hlen) Hx Hy. unfold pixel, clear. simpl.
  pose proof (flat_index_lt (W fb) (H fb) x y Hx Hy).
  apply lookup_replicate_2. lia.
Qed.

(** C8, as amended.  Scenario 1: on the 64 × 64 framebuffer cleared to 0
    the particle at (32,32) with r = 40 paints white exactly the pixels
    with (x−32)² + (y−32)² ≤ 1600 and leaves the others 0; the centre pixel
    is white and the four corner pixels stay 0. *)
Theorem scenario1_disc_not_canvas :
  ∃ fb',
    render_circles_tiled_omp [mkParticle 32 32 40 0xFFFFFFFF]
                             (clear (Framebuffer_new 64 64) 0) = Some fb' ∧
    (∀ x y, 0 ≤ x < 64 → 0 ≤ y < 64 →
       pixel fb' x y =
       if decide (in_disc 32 32 40 x y) then Some 0xFFFFFFFF else Some 0) ∧
    pixel fb' 32 32 = Some 0xFFFFFFFF ∧
    pixel fb' 0 0 = Some 0 ∧ pixel fb' 63 0 = Some 0 ∧
    pixel fb' 0 63 = Some 0 ∧ pixel fb' 63 63 = Some 0.
Proof.
  assert (fb_wf (Framebuffer_new 64 64)) as Hwf0 by (by vm_compute).
  assert (fb_wf (clear (Framebuffer_new 64 64) 0)) as Hwf by (by vm_compute).
  destruct (render_omp_spec [mkParticle 32 32 40 0xFFFFFFFF] _ Hwf)
    as (fb' & Hr & _ & _ & _ & Hpt).
  assert (∀ x y, 0 ≤ x < 64 → 0 ≤ y < 64 →
            pixel fb' x y =
            if decide (in_disc 32 32 40 x y) then Some 0xFFFFFFFF else Some 0)
    as Hall.
  { intros x y Hx Hy. rewrite Hpt by done.
    rewrite painter_cons. change (painter [] x y) with (@None Z). cbv iota.
    rewrite (pixel_clear _ 0 x y Hwf0) by done.
    rewrite (decide_ext (covers _ x y) (in_disc 32 32 40 x y)).
    - by destruct (decide (in_disc 32 32 40 x y)).
    - unfold covers. cbn [p_x p_y p_r]. split; [tauto|]. split; [lia|done]. }
  exists fb'. split; [done|]. split; [done|].
  rewrite (Hall 32 32), (Hall 0 0), (Hall 63 0), (Hall 0 63), (Hall 63 63)
    by lia.
  repeat split; reflexivity.
Qed.

(** C8, as stated, fails: the corner pixel (0,0) lies outside the disc
    (32² + 32² = 2048 > 1600) and keeps the background 0. *)
Lemma scenario1_counterexample :
  ∃ fb',
    render_circles_tiled_omp [mkParticle 32 32 40 0xFFFFFFFF]
                             (clear (Framebuffer_new 64 64) 0) = Some fb' ∧
    pixel fb' 0 0 = Some 0 ∧ pixel fb' 0 0 ≠ Some 0xFFFFFFFF.
Proof.
  assert (fb_wf (Framebuffer_new 64 64)) as Hwf0 by (by vm_compute).
  assert (fb_wf (clear (Framebuffer_new 64 64) 0)) as Hwf by (by vm_compute).
  destruct (render_omp_spec [mkParticle 32 32 40 0xFFFFFFFF] _ Hwf)
    as (fb' & Hr & _ & _ & _ & Hpt).
  change (W (clear (Framebuffer_new 64 64) 0)) with 64 in Hpt.
  change (H (clear (Framebuffer_new 64 64) 0)) with 64 in Hpt.
  exists fb'. split; [exact Hr|].
  assert (pixel fb' 0 0 = Some 0) as Hcorner.
  { rewrite (Hpt 0 0) by lia.
    replace (painter [mkParticle 32 32 40 0xFFFFFFFF] 0 0) with (@None Z)
      by reflexivity.
    apply pixel_clear; [exact Hwf0|simpl; lia|simpl; lia]. }
  rewrite Hcorner. split; [reflexivity|discriminate].
Qed.



(** ** The untiled reference: lemmas *)






(** * Further properties of the framebuffer and of the rasterizer *)

(** ** Framebuffer: constructor and clear *)

(** X1.  The constructor, for dimensions of type [int] that are not
    negative, builds a framebuffer of the given width and height with
    exactly W·H pixels ([(size_t)w * h] does not wrap), all of them 0. *)
Theorem Framebuffer_new_zeroed w h :
  0 ≤ w < int_max → 0 ≤ h < int_max →
  fb_wf (Framebuffer_new w h) ∧
  W (Framebuffer_new w h) = w ∧ H (Framebuffer_new w h) = h ∧
  ∀ x y, 0 ≤ x < w → 0 ≤ y < h → pixel (Framebuffer_new w h) x y = Some 0.
Proof.
  intros Hw Hh.
  assert (size_mul (size_t w) (size_t h) = w * h) as Hsize.
  { unfold size_mul, size_t. rewrite <- Z.mul_mod by done.
    apply Z.mod_small. unfold int_max, size_max in *. nia. }
  assert (0 ≤ w * h) by nia.
  split; [|split; [done|split; [done|]]].
  - unfold fb_wf, Framebuffer_new. simpl.
    rewrite length_replicate, Hsize. lia.
  - intros x y Hx Hy. unfold pixel, Framebuffer_new. simpl.
    pose proof (flat_index_lt w h x y Hx Hy).
    apply lookup_replicate_2. rewrite Hsize. lia.
Qed.

Lemma Framebuffer_new_zeroed_witness :
  pixel (Framebuffer_new 3 2) 2 1 = Some 0.
Proof.
  apply (Framebuffer_new_zeroed 3 2); unfold int_max; lia.
Defined.

(** X2.  [clear] keeps the dimensions and the size of the pixel vector,
    sets every pixel to the given colour, and forgets what was there: a
    second clear overrides the first. *)
Theorem clear_fills fb a c :
  fb_wf fb →
  fb_wf (clear fb c) ∧
  W (clear fb c) = W fb ∧ H (clear fb c) = H fb ∧
  length (pix (clear fb c)) = length (pix fb) ∧
  (∀ x y, 0 ≤ x < W fb → 0 ≤ y < H fb → pixel (clear fb c) x y = Some c) ∧
  clear (clear fb a) c = clear fb c.
Proof.
  intros Hwf. pose proof Hwf as (HW & HH & Hlen).
  split; [|split; [done|split; [done|split; [|split]]]].
  - unfold fb_wf, clear. simpl. by rewrite length_replicate.
  - unfold clear. simpl. apply length_replicate.
  - intros x y Hx Hy. unfold pixel, clear. simpl.
    pose proof (flat_index_lt (W fb) (H fb) x y Hx Hy).
    apply lookup_replicate_2. lia.
  - unfold clear. simpl. by rewrite length_replicate.
Qed.

Lemma clear_fills_witness :
  pixel (clear (Framebuffer_new 3 2) 7) 2 1 = Some 7.
Proof.
  apply (clear_fills (Framebuffer_new 3 2) 0 7); [|simpl; lia..].
  by vm_compute.
Defined.

(** ** putpix *)

Lemma uint_of_int z :
  - int_max ≤ z < int_max →
  uint z = if decide (0 ≤ z) then z else z + uint_max.
Proof.
  intros Hz. unfold uint. unfold int_max in Hz.
  assert (uint_max = 2 ^ 32) as Hm by done.
  case_decide.
  - apply Z.mod_small. lia.
  - symmetry. apply (Z.mod_unique z uint_max (-1)); lia.
Qed.

Lemma last_store_singleton x y s :
  last_store x y [s] = if decide (at_pixel x y s) then Some (st_val s) else None.
Proof. done. Qed.

(** The bounds test of [putpix], for [int] coordinates. *)
Lemma putpix_test fb x y :
  fb_wf fb → - int_max ≤ x < int_max → - int_max ≤ y < int_max →
  (uint (W fb) ≤ uint x ∨ uint (H fb) ≤ uint y) ↔
  ¬ (0 ≤ x < W fb ∧ 0 ≤ y < H fb).
Proof.
  intros (HW & HH & _) Hx Hy.
  assert (uint_max = 2 * int_max) as Hmax by done.
  rewrite (uint_of_int (W fb)), (uint_of_int (H fb)) by lia.
  rewrite (uint_of_int x), (uint_of_int y) by done.
  repeat case_decide; lia.
Qed.

Lemma putpix_outside fb x y c :
  fb_wf fb → - int_max ≤ x < int_max → - int_max ≤ y < int_max →
  ¬ (0 ≤ x < W fb ∧ 0 ≤ y < H fb) → putpix fb x y c = Some fb.
Proof.
  intros Hwf Hx Hy Hout. unfold putpix.
  by rewrite decide_True by (by apply putpix_test).
Qed.

(** Inside the framebuffer [putpix] is one store at the flat index. *)
Lemma putpix_inside fb x y c :
  fb_wf fb → 0 ≤ x < W fb → 0 ≤ y < H fb →
  putpix fb x y c = exec fb [mkStore y x (y * W fb + x) c].
Proof.
  intros Hwf Hx Hy. pose proof Hwf as (HW & HH & _). unfold putpix.
  rewrite decide_False.
  - rewrite (flat_index_size (W fb) (H fb)) by done.
    by rewrite exec_singleton.
  - rewrite putpix_test; [tauto|done|unfold int_max in *; lia..].
Qed.

(** X3.  [putpix] checks its coordinates.  For [int] coordinates, a pixel
    outside [0,W) × [0,H) (negative coordinates included, which the
    unsigned comparison rejects) leaves the framebuffer as it was; a pixel
    inside is set to the colour, and no other pixel changes.  It never
    writes out of range. *)
Theorem putpix_bounds_checked fb x y c :
  fb_wf fb → - int_max ≤ x < int_max → - int_max ≤ y < int_max →
  (¬ (0 ≤ x < W fb ∧ 0 ≤ y < H fb) → putpix fb x y c = Some fb) ∧
  (0 ≤ x < W fb → 0 ≤ y < H fb →
   ∃ fb', putpix fb x y c = Some fb' ∧
     W fb' = W fb ∧ H fb' = H fb ∧ fb_wf fb' ∧
     ∀ x' y', 0 ≤ x' < W fb → 0 ≤ y' < H fb →
       pixel fb' x' y' =
       if decide (x' = x ∧ y' = y) then Some c else pixel fb x' y').
Proof.
  intros Hwf Hx Hy. split; [by apply putpix_outside|].
  intros Hxin Hyin. rewrite putpix_inside by done.
  destruct (exec_spec fb [mkStore y x (y * W fb + x) c] Hwf)
    as (fb' & Hex & HW' & HH' & Hwf' & Hpt).
  { apply Forall_singleton. unfold store_ok. simpl. lia. }
  exists fb'. do 4 (split; [done|]).
  intros x' y' Hx' Hy'. rewrite Hpt, last_store_singleton by done.
  unfold at_pixel. simpl.
  rewrite (decide_ext (x = x' ∧ y = y') (x' = x ∧ y' = y)) by lia.
  by case_decide.
Qed.

Lemma putpix_bounds_checked_witness :
  putpix (Framebuffer_new 3 2) (-1) 1 9 = Some (Framebuffer_new 3 2).
Proof.
  apply (putpix_bounds_checked (Framebuffer_new 3 2) (-1) 1 9).
  - by vm_compute.
  - unfold int_max. lia.
  - unfold int_max. lia.
  - simpl. lia.
Defined.

(** ** draw_circle_clipped_to_tile at the edges of its domain *)

Lemma exec_nil fb : exec fb [] = Some fb.
Proof. by destruct fb. Qed.


(** X4.  A call draws nothing, and returns the framebuffer as it was,
    whatever the framebuffer and the clip rectangle, when the radius is
    negative, when the clip rectangle is empty, or when the bounding
    square of the circle misses the clip rectangle. *)
Theorem draw_circle_nothing_to_draw fb cx cy r color x0 y0 x1 y1 :
  r < 0 ∨ x1 ≤ x0 ∨ y1 ≤ y0 ∨
  cx + r < x0 ∨ x1 ≤ cx - r ∨ cy + r < y0 ∨ y1 ≤ cy - r →
  draw_circle_stores (W fb) cx cy r color x0 y0 x1 y1 = [] ∧
  draw_circle_clipped_to_tile fb cx cy r color x0 y0 x1 y1 = Some fb.
Proof.
  intros Hcase.
  assert (draw_circle_stores (W fb) cx cy r color x0 y0 x1 y1 = []) as Hnil.
  { apply elem_of_nil_inv. intros s.
    rewrite draw_circle_stores_pixel. unfold in_disc, in_rect.
    intros (_ & _ & Hr & Hd & Hrx & Hry).
    pose proof (Z.square_nonneg (st_x s - cx)).
    pose proof (Z.square_nonneg (st_y s - cy)).
    pose proof (bounds_of_sq_lt (st_x s - cx) r Hr ltac:(lia)).
    pose proof (bounds_of_sq_lt (st_y s - cy) r Hr ltac:(lia)). lia. }
  split; [done|].
  rewrite draw_circle_clipped_to_tile_stores, Hnil. apply exec_nil.
Qed.

Lemma draw_circle_nothing_to_draw_witness :
  draw_circle_clipped_to_tile (Framebuffer_new 4 4) 1 1 (-1) 9 0 0 4 4
  = Some (Framebuffer_new 4 4).
Proof.
  apply (draw_circle_nothing_to_draw (Framebuffer_new 4 4) 1 1 (-1) 9 0 0 4 4).
  left. lia.
Defined.



(** ** The whole pass: how renderings compose *)

(** X6.  Rendering is idempotent: rendering the same particles again onto
    the result, without a clear in between, changes nothing. *)
Theorem render_idempotent P fb fb' :
  fb_wf fb →
  render_circles_tiled_omp P fb = Some fb' →
  render_circles_tiled_omp P fb' = Some fb'.
Proof.
  intros Hwf Hr.
  destruct (render_omp_spec P fb Hwf) as (fb1 & Hr1 & HW1 & HH1 & Hwf1 & Hpt1).
  rewrite Hr in Hr1. injection Hr1 as <-.
  destruct (render_omp_spec P fb' Hwf1)
    as (fb2 & Hr2 & HW2 & HH2 & Hwf2 & Hpt2).
  rewrite Hr2. f_equal. apply fb_ext; [done|done|done|done|].
  intros x y Hx Hy. rewrite HW2 in Hx. rewrite HH2 in Hy.
  rewrite Hpt2 by done. rewrite HW1 in Hx. rewrite HH1 in Hy.
  rewrite Hpt1 by done. by destruct (painter P x y).
Qed.

Lemma render_idempotent_witness :
  ∃ fb',
    render_circles_tiled_omp [mkParticle 1 1 1 5] (Framebuffer_new 4 4)
      = Some fb' ∧
    render_circles_tiled_omp [mkParticle 1 1 1 5] fb' = Some fb'.
Proof.
  destruct (render_circles_tiled_omp [mkParticle 1 1 1 5]
              (Framebuffer_new 4 4)) as [fb'|] eqn:E.
  - exists fb'. split; [reflexivity|].
    apply (render_idempotent [mkParticle 1 1 1 5] (Framebuffer_new 4 4) fb');
      [by vm_compute|exact E].
  - vm_compute in E. discriminate E.
Defined.

(** X7.  Rendering composes along the particle list: rendering [P1 ++ P2]
    is rendering [P1] and then, onto the result, [P2]. *)
Theorem render_app P1 P2 fb :
  fb_wf fb →
  render_circles_tiled_omp (P1 ++ P2) fb =
  render_circles_tiled_omp P1 fb ≫= render_circles_tiled_omp P2.
Proof.
  intros Hwf.
  destruct (render_omp_spec (P1 ++ P2) fb Hwf)
    as (fb12 & -> & HW12 & HH12 & Hwf12 & Hpt12).
  destruct (render_omp_spec P1 fb Hwf) as (fb1 & -> & HW1 & HH1 & Hwf1 & Hpt1).
  simpl.
  destruct (render_omp_spec P2 fb1 Hwf1)
    as (fb2 & -> & HW2 & HH2 & Hwf2 & Hpt2).
  f_equal. apply fb_ext; [done|done|congruence|congruence|].
  intros x y Hx Hy. rewrite HW12 in Hx. rewrite HH12 in Hy.
  rewrite Hpt12 by done. rewrite painter_app.
  rewrite <- HW1 in Hx. rewrite <- HH1 in Hy. rewrite Hpt2 by done.
  rewrite HW1 in Hx. rewrite HH1 in Hy. rewrite Hpt1 by done.
  by destruct (painter P2 x y).
Qed.

Lemma render_app_witness :
  render_circles_tiled_omp ([mkParticle 1 1 1 5] ++ [mkParticle 2 2 1 6])
                           (Framebuffer_new 4 4) =
  render_circles_tiled_omp [mkParticle 1 1 1 5] (Framebuffer_new 4 4)
    ≫= render_circles_tiled_omp [mkParticle 2 2 1 6].
Proof.
  apply (render_app [mkParticle 1 1 1 5] [mkParticle 2 2 1 6]
           (Framebuffer_new 4 4)).
  by vm_compute.
Defined.



(** ** The tile grid *)

(** X9.  No tile of the grid is empty and none is larger than T × T: each
    tile rectangle is between 1 and T pixels wide and high, and it is a
    full T wide (high) unless it lies in the last column (row), which is
    cut at the framebuffer's edge. *)
Theorem tile_rect_size T fbW fbH tid :
  1 ≤ T → 0 ≤ fbW → 0 ≤ fbH →
  0 ≤ tid < tiles_of T fbW * tiles_of T fbH →
  1 ≤ tile_x1 T fbW tid - tile_x0 T fbW tid ≤ T ∧
  1 ≤ tile_y1 T fbW fbH tid - tile_y0 T fbW tid ≤ T ∧
  (tid `rem` tiles_of T fbW < tiles_of T fbW - 1 →
   tile_x1 T fbW tid - tile_x0 T fbW tid = T) ∧
  (tid `quot` tiles_of T fbW < tiles_of T fbH - 1 →
   tile_y1 T fbW fbH tid - tile_y0 T fbW tid = T).
Proof.
  intros HT HW HH Htid.
  destruct (tile_rect_tid T fbW fbH tid HT HW HH Htid)
    as (tx & ty & Htx & Hty & Heq & -> & -> & -> & ->).
  destruct (tid_split (tiles_of T fbW) tx ty) as [Hrem Hquot]; [lia|lia|].
  rewrite Heq, Hrem, Hquot.
  destruct (tiles_of_bounds T HT fbW HW) as (_ & _ & Hxhi).
  destruct (tiles_of_bounds T HT fbH HH) as (_ & _ & Hyhi).
  assert (tx * T + T ≤ T * tiles_of T fbW) by nia.
  assert (ty * T + T ≤ T * tiles_of T fbH) by nia.
  repeat split; try lia.
  - intros Hlt. assert (tx * T + T + T ≤ T * tiles_of T fbW) by nia. lia.
  - intros Hlt. assert (ty * T + T + T ≤ T * tiles_of T fbH) by nia. lia.
Qed.

Lemma tile_rect_size_witness :
  1 ≤ tile_x1 TILE 40 1 - tile_x0 TILE 40 1 ≤ TILE.
Proof.
  apply (tile_rect_size TILE 40 40 1); unfold TILE; try lia.
  by vm_compute.
Defined.

(** ** The tile pass over any sequence of tiles *)

Lemma tile_last_store T P fbW fbH bins tid x y :
  1 ≤ T → 0 ≤ fbW < int_max → 0 ≤ fbH < int_max →
  binning T P fbW fbH = Some bins →
  0 ≤ tid < tiles_of T fbW * tiles_of T fbH →
  0 ≤ x < fbW → 0 ≤ y < fbH →
  last_store x y (tile_stores T P fbW fbH bins tid) =
  if decide (tid = y `div` T * tiles_of T fbW + x `div` T)
  then painter P x y else None.
Proof.
  intros HT HW HH Hb Htid Hx Hy.
  assert (tile_stores T P fbW fbH bins tid
          = raster_stores T P fbW fbH bins [tid]) as ->.
  { unfold raster_stores. by rewrite bind_singleton. }
  rewrite last_store_filter.
  rewrite (raster_stores_at T HT fbW fbH HW HH P bins Hb); try done.
  - rewrite (decide_ext (_ ∈ [tid])
               (tid = y `div` T * tiles_of T fbW + x `div` T)).
    + case_decide; [|done].
      rewrite <- list_fmap_compose. symmetry. apply painter_by_index.
    + rewrite list_elem_of_singleton. split; congruence.
  - apply NoDup_singleton.
  - by intros tid' ->%list_elem_of_singleton.
Qed.

Lemma raster_last_store_any T P fbW fbH bins order x y :
  1 ≤ T → 0 ≤ fbW < int_max → 0 ≤ fbH < int_max →
  binning T P fbW fbH = Some bins →
  (∀ tid, tid ∈ order → 0 ≤ tid < tiles_of T fbW * tiles_of T fbH) →
  0 ≤ x < fbW → 0 ≤ y < fbH →
  last_store x y (raster_stores T P fbW fbH bins order) =
  if decide (y `div` T * tiles_of T fbW + x `div` T ∈ order)
  then painter P x y else None.
Proof.
  intros HT HW HH Hb Horder Hx Hy. unfold raster_stores.
  induction order as [|tid order IH].
  { rewrite decide_False; [done|]. apply not_elem_of_nil. }
  rewrite bind_cons, last_store_app, IH
    by (intros; apply Horder; by right).
  rewrite (tile_last_store T P fbW fbH bins tid x y)
    by (done || apply Horder; by left).
  set (owner := y `div` T * tiles_of T fbW + x `div` T).
  destruct (decide (owner ∈ order)) as [Hin|Hin].
  - rewrite (decide_True (P := owner ∈ tid :: order)) by (by right).
    destruct (painter P x y) as [c|]; [done|].
    by destruct (decide (tid = owner)).
  - destruct (decide (tid = owner)) as [->|Hne].
    + by rewrite (decide_True (P := _ ∈ _ :: _)) by (by left).
    + rewrite (decide_False (P := _ ∈ _ :: _)); [done|].
      intros [?|?]%elem_of_cons; by subst.
Qed.

(** The pass over any sequence of tiles of the grid: the pixels of the
    tiles taken get their final colour, the others keep their value. *)
Lemma render_in_order_pixels T order P fb :
  1 ≤ T → fb_wf fb →
  (∀ tid, tid ∈ order →
     0 ≤ tid < tiles_of T (W fb) * tiles_of T (H fb)) →
  ∃ fb', render_in_order T order P fb = Some fb' ∧
    W fb' = W fb ∧ H fb' = H fb ∧ fb_wf fb' ∧
    ∀ x y, 0 ≤ x < W fb → 0 ≤ y < H fb →
      pixel fb' x y =
      if decide (y `div` T * tiles_of T (W fb) + x `div` T ∈ order)
      then match painter P x y with
           | Some c => Some c
           | None => pixel fb x y
           end
      else pixel fb x y.
Proof.
  intros HT Hwf Horder. pose proof Hwf as (HW & HH & Hlen).
  destruct (binning_spec T HT (W fb) (H fb) HW HH P) as (bins & Hb & _).
  rewrite render_in_order_stores, Hb. simpl.
  destruct (exec_spec fb (raster_stores T P (W fb) (H fb) bins order) Hwf)
    as (fb' & Hex & HW' & HH' & Hwf' & Hpt).
  { by apply (raster_stores_ok T HT (W fb) (H fb) HW HH P bins). }
  exists fb'. do 4 (split; [done|]).
  intros x y Hx Hy. rewrite Hpt by done.
  rewrite (raster_last_store_any T P (W fb) (H fb) bins order x y) by done.
  by case_decide.
Qed.




(** X11.  Any sequence of tile tasks in which every tile of the grid occurs
    at least once, in whatever order and with whatever repetitions, gives
    the final framebuffer of the ascending sequential loop. *)
Theorem render_any_covering_order T order P fb :
  1 ≤ T → fb_wf fb →
  (∀ tid, tid ∈ order ↔
     0 ≤ tid < tiles_of T (W fb) * tiles_of T (H fb)) →
  render_in_order T order P fb = render_circles_tiled T P fb.
Proof.
  intros HT Hwf Hcover. pose proof Hwf as (HW & HH & _).
  destruct (render_in_order_pixels T order P fb HT Hwf)
    as (fb1 & -> & HW1 & HH1 & Hwf1 & Hpt1).
  { intros tid. apply Hcover. }
  destruct (render_in_order_spec T (tile_order T (W fb) (H fb)) P fb)
    as (fb2 & Hr2 & HW2 & HH2 & Hwf2 & Hpt2); [done|done|done|].
  unfold render_circles_tiled. rewrite Hr2. f_equal.
  apply fb_ext; [done|done|congruence|congruence|].
  intros x y Hx Hy. rewrite HW1 in Hx. rewrite HH1 in Hy.
  rewrite Hpt1, Hpt2 by done.
  rewrite decide_True; [done|]. apply Hcover.
  destruct (tile_of_coord T HT (W fb) x Hx) as [Htx _].
  destruct (tile_of_coord T HT (H fb) y Hy) as [Hty _]. nia.
Qed.

Lemma render_any_covering_order_witness :
  render_in_order 2 [3; 0; 3; 2; 1; 0] [mkParticle 1 1 5 7]
                  (Framebuffer_new 4 4)
  = render_circles_tiled 2 [mkParticle 1 1 5 7] (Framebuffer_new 4 4).
Proof.
  apply (render_any_covering_order 2 [3; 0; 3; 2; 1; 0] [mkParticle 1 1 5 7]
           (Framebuffer_new 4 4)).
  - lia.
  - by vm_compute.
  - intros tid. change (tiles_of 2 (W (Framebuffer_new 4 4))) with 2.
    change (tiles_of 2 (H (Framebuffer_new 4 4))) with 2.
    rewrite list_elem_of_In. simpl. lia.
Defined.

(** ** Tiling as an optimisation *)

(** X12.  The tiled pass gives what the plain loop over the particles
    gives that fills each circle once, in index order, clipped to the whole
    framebuffer; binning and tiling change the work done, not the image. *)
Theorem render_as_sequential_fill P fb :
  fb_wf fb →
  render_circles_tiled_omp P fb =
  for_each P (λ p fb',
    draw_circle_clipped_to_tile fb' (p_x p) (p_y p) (p_r p) (p_color p)
                                0 0 (W fb') (H fb')) fb.
Proof.
  intros Hwf. pose proof Hwf as (HW & HH & Hlen).
  rewrite (for_each_ext _ (λ p fb',
    exec fb' (draw_circle_stores (W fb') (p_x p) (p_y p) (p_r p) (p_color p)
                                 0 0 (W fb') (H fb'))))
    by (intros; apply draw_circle_clipped_to_tile_stores).
  rewrite (for_each_exec (λ p w h,
    draw_circle_stores w (p_x p) (p_y p) (p_r p) (p_color p) 0 0 w h)).
  assert (1 ≤ TILE) as HT by done.
  destruct (binning_spec TILE HT (W fb) (H fb) HW HH P) as (bins & Hb & _).
  unfold render_circles_tiled_omp, render_circles_tiled.
  rewrite render_in_order_stores, Hb. simpl. apply exec_ext; [done| | |].
  - apply (raster_stores_ok TILE HT (W fb) (H fb) HW HH).
    intros tid. unfold tile_order. rewrite elem_of_seqZ. lia.
  - apply Forall_bind, Forall_forall. intros p _. simpl.
    apply Forall_forall. intros s.
    rewrite draw_circle_stores_pixel. unfold in_rect, store_ok.
    intros (_ & Ha & _ & _ & Hrx & Hry).
    rewrite Ha, (flat_index_size (W fb) (H fb)) by lia. lia.
  - intros x y Hx Hy.
    rewrite (raster_last_store TILE HT (W fb) (H fb) HW HH P bins Hb)
      by done.
    rewrite last_store_filter, filter_bind.
    rewrite (list_bind_ext _
      (λ p, if decide (covers p x y)
            then [mkStore y x
                    (size_add (size_mul (size_t y) (size_t (W fb)))
                              (size_t x)) (p_color p)]
            else []) _ P); [| |done]; cycle 1.
    { intros p. rewrite draw_circle_stores_at.
      apply decide_ext. unfold covers, in_rect. intuition lia. }
    rewrite (bind_if_singleton (λ p, covers p x y)).
    by rewrite <- list_fmap_compose.
Qed.

Lemma render_as_sequential_fill_witness :
  render_circles_tiled_omp [mkParticle 1 1 2 5; mkParticle 2 2 2 6]
                           (Framebuffer_new 4 4) =
  for_each [mkParticle 1 1 2 5; mkParticle 2 2 2 6] (λ p fb',
    draw_circle_clipped_to_tile fb' (p_x p) (p_y p) (p_r p) (p_color p)
                                0 0 (W fb') (H fb')) (Framebuffer_new 4 4).
Proof.
  apply (render_as_sequential_fill [mkParticle 1 1 2 5; mkParticle 2 2 2 6]
           (Framebuffer_new 4 4)).
  by vm_compute.
Defined.

(** ** The cost of binning one particle *)

Lemma length_bind_const {A B} (f : A → list B) (l : list A) (n : nat) :
  (∀ a, length (f a) = n) → length (l ≫= f) = (length l * n)%nat.
Proof.
  intros Hf. induction l as [|a l IH]; [done|].
  rewrite bind_cons, length_app, Hf, IH. simpl. lia.
Qed.

(** The number of tile columns (or rows) in the clamped index range of an
    interval of half-width [r], whatever the size of the grid. *)
Lemma axis_count_bound T n c r :
  1 ≤ T → 0 ≤ r →
  Z.min (n - 1) ((c + r) `quot` T) + 1 - Z.max 0 ((c - r) `quot` T)
    ≤ (2 * r) `div` T + 2.
Proof.
  intros HT Hr.
  assert (0 ≤ (2 * r) `div` T) as HK by (apply Z.div_pos; lia).
  destruct (decide (c + r < 0)) as [Hneg|Hpos].
  { pose proof (quot_nonpos (c + r) T ltac:(lia) ltac:(lia)). lia. }
  rewrite (Z.quot_div_nonneg (c + r)) by lia.
  destruct (decide (c - r < 0)) as [Hlo|Hlo].
  - assert ((c + r) `div` T ≤ (2 * r) `div` T) by (apply Z.div_le_mono; lia).
    lia.
  - rewrite (Z.quot_div_nonneg (c - r)) by lia.
    pose proof (Z.div_mod (c - r) T ltac:(lia)) as Ha.
    pose proof (Z.mod_pos_bound (c - r) T ltac:(lia)) as Hma.
    pose proof (Z.div_mod (2 * r) T ltac:(lia)) as Hb.
    pose proof (Z.mod_pos_bound (2 * r) T ltac:(lia)) as Hmb.
    assert ((c + r) `div` T < (c - r) `div` T + (2 * r) `div` T + 2).
    { apply Z.div_lt_upper_bound; [lia|]. nia. }
    lia.
Qed.

(** X13.  The work of binning one particle depends on its radius, not on
    the size of the framebuffer: a particle of radius r ≥ 0 is pushed to at
    most ((2r) div T + 2)² bins. *)
Theorem bin_pushes_count T tiles_x tiles_y i p :
  1 ≤ T → 0 ≤ p_r p →
  Z.of_nat (length (bin_pushes T tiles_x tiles_y i p))
    ≤ ((2 * p_r p) `div` T + 2) * ((2 * p_r p) `div` T + 2).
Proof.
  intros HT Hr. unfold bin_pushes, collect_le. cbv zeta.
  set (min_tx := Z.max 0 ((p_x p - p_r p) `quot` T)).
  set (max_tx := Z.min (tiles_x - 1) ((p_x p + p_r p) `quot` T)).
  set (min_ty := Z.max 0 ((p_y p - p_r p) `quot` T)).
  set (max_ty := Z.min (tiles_y - 1) ((p_y p + p_r p) `quot` T)).
  rewrite (length_bind_const _ _ (Z.to_nat (max_tx + 1 - min_tx))); cycle 1.
  { intros ty. rewrite (length_bind_const _ _ 1%nat) by done.
    rewrite length_seqZ. lia. }
  rewrite length_seqZ.
  pose proof (axis_count_bound T tiles_x (p_x p) (p_r p) HT Hr) as Hx.
  pose proof (axis_count_bound T tiles_y (p_y p) (p_r p) HT Hr) as Hy.
  fold min_tx max_tx in Hx. fold min_ty max_ty in Hy.
  assert (0 ≤ (2 * p_r p) `div` T) as HK by (apply Z.div_pos; lia).
  rewrite Nat2Z.inj_mul.
  assert (0 ≤ Z.of_nat (Z.to_nat (max_ty + 1 - min_ty))
            ≤ (2 * p_r p) `div` T + 2) by lia.
  assert (0 ≤ Z.of_nat (Z.to_nat (max_tx + 1 - min_tx))
            ≤ (2 * p_r p) `div` T + 2) by lia.
  nia.
Qed.

Lemma bin_pushes_count_witness :
  Z.of_nat (length (bin_pushes TILE 1000 1000 0 (mkParticle 500 500 40 1)))
    ≤ ((2 * 40) `div` TILE + 2) * ((2 * 40) `div` TILE + 2).
Proof.
  apply (bin_pushes_count TILE 1000 1000 0 (mkParticle 500 500 40 1)).
  - unfold TILE. lia.
  - simpl. lia.
Defined.

(** ** Degenerate inputs *)

(** X14.  On a framebuffer without pixels (W = 0 or H = 0) the grid has no
    tile to paint: the pass, whatever the particles, binning included, runs
    without fault and returns the framebuffer as it was. *)
Theorem render_empty_framebuffer P fb :
  fb_wf fb → W fb = 0 ∨ H fb = 0 →
  render_circles_tiled_omp P fb = Some fb.
Proof.
  intros Hwf Hempty.
  destruct (render_omp_spec P fb Hwf)
    as (fb' & -> & HW' & HH' & Hwf' & _).
  f_equal. apply fb_ext; [done|done|done|done|].
  intros x y Hx Hy. lia.
Qed.

Lemma render_empty_framebuffer_witness :
  render_circles_tiled_omp [mkParticle 1 1 5 7] (Framebuffer_new 0 3)
  = Some (Framebuffer_new 0 3).
Proof.
  apply (render_empty_framebuffer [mkParticle 1 1 5 7] (Framebuffer_new 0 3)).
  - by vm_compute.
  - left. reflexivity.
Defined.

(** X15.  A circle of radius 0 is one checked pixel write: clipped to the
    whole framebuffer, [draw_circle_clipped_to_tile] with r = 0 does what
    [putpix] does at the centre, also when the centre lies outside the
    framebuffer. *)
Theorem draw_circle_radius_zero fb cx cy color :
  fb_wf fb → - int_max ≤ cx < int_max → - int_max ≤ cy < int_max →
  draw_circle_clipped_to_tile fb cx cy 0 color 0 0 (W fb) (H fb)
  = putpix fb cx cy color.
Proof.
  intros Hwf Hcx Hcy. pose proof Hwf as (HW & HH & _).
  rewrite draw_circle_clipped_to_tile_stores.
  assert (∀ s, s ∈ draw_circle_stores (W fb) cx cy 0 color 0 0 (W fb) (H fb)
               → (st_x s = cx ∧ st_y s = cy) ∧
                 (0 ≤ cx < W fb ∧ 0 ≤ cy < H fb) ∧
                 st_addr s = cy * W fb + cx) as Hstores.
  { intros s. rewrite draw_circle_stores_pixel. unfold in_disc, in_rect.
    intros (_ & Ha & _ & Hd & Hrx & Hry).
    pose proof (Z.square_nonneg (st_y s - cy)).
    pose proof (Z.square_nonneg (st_x s - cx)).
    pose proof (bounds_of_sq_lt (st_x s - cx) 0 ltac:(lia) ltac:(lia)).
    pose proof (bounds_of_sq_lt (st_y s - cy) 0 ltac:(lia) ltac:(lia)).
    assert (st_x s = cx) as Ex by lia. assert (st_y s = cy) as Ey by lia.
    rewrite Ex, Ey in *.
    rewrite Ha, (flat_index_size (W fb) (H fb)) by lia. lia. }
  destruct (decide (0 ≤ cx < W fb ∧ 0 ≤ cy < H fb)) as [[Hx Hy]|Hout].
  - rewrite putpix_inside by done. apply exec_ext; [done| | |].
    + apply Forall_forall. intros s Hs.
      destruct (Hstores s Hs) as ((Ex & Ey) & _ & Ha).
      unfold store_ok. rewrite Ex, Ey, Ha. lia.
    + apply Forall_singleton. unfold store_ok. simpl. lia.
    + intros x y _ _.
      rewrite draw_circle_last_store, last_store_singleton.
      apply decide_ext. unfold at_pixel, in_disc, in_rect. simpl. split.
      * intros (_ & Hd & _).
        pose proof (Z.square_nonneg (y - cy)).
        pose proof (Z.square_nonneg (x - cx)).
        pose proof (bounds_of_sq_lt (x - cx) 0 ltac:(lia) ltac:(lia)).
        pose proof (bounds_of_sq_lt (y - cy) 0 ltac:(lia) ltac:(lia)). lia.
      * intros [-> ->]. lia.
  - rewrite putpix_outside by done.
    rewrite (elem_of_nil_inv (draw_circle_stores _ _ _ _ _ _ _ _ _)).
    + apply exec_nil.
    + intros s Hs. destruct (Hstores s Hs) as (_ & Hin & _). tauto.
Qed.

Lemma draw_circle_radius_zero_witness :
  draw_circle_clipped_to_tile (Framebuffer_new 4 4) 2 1 0 9 0 0
    (W (Framebuffer_new 4 4)) (H (Framebuffer_new 4 4))
  = putpix (Framebuffer_new 4 4) 2 1 9.
Proof.
  apply (draw_circle_radius_zero (Framebuffer_new 4 4) 2 1 9).
  - by vm_compute.
  - unfold int_max. lia.
  - unfold int_max. lia.
Defined.
